(** * Snake Speller: the game simulation of [src/App.tsx]

    A shallow embedding of the simulation that lives in the React component
    [App]: the letter placement generator [generateFoodsForWord], the tick
    callback handed to [useInterval], the keyboard and on-screen direction
    handlers, [resetGame], [startGame] and the high-score effect.

    Modelling conventions.
    - Every React state cell ([useState]) and the [directionQueue] ref are
      fields of one record [GameState]; a handler is a function on that record
      and the state updates it queues are applied together when it returns
      (one render per event).  Each handler runs on the state of the latest
      render; effects run after the render that changed their dependencies.
    - JS numbers that hold coordinates, scores and delays are [Z]; array
      indices are [nat]; a string is a [string] of one-byte characters.
    - [Math.random()] is an oracle: a finite supply of draws, each a rational
      in the unit interval, consumed left to right.  A computation that asks
      for a draw when the supply is empty has not returned yet ([Spinning]):
      the supply is a prefix of an endless stream, so a computation returns
      on the stream exactly when it returns on some prefix.
    - Products and [Math.floor] are taken over the rationals.
    - An uncaught [TypeError] is the outcome [Thrown]; the state it leaves
      behind is not modelled. *)

From Stdlib Require Import ZArith QArith Qround List String Ascii Bool Lia.
From Stdlib Require Import DecimalString Permutation.
From Stdlib Require DecimalNat DecimalFacts.
Import ListNotations.

Local Open Scope Z_scope.

(** ** Constants *)

Definition GRID_SIZE : Z := 20.

(** [{x, y}]: a board cell, a snake segment, or a direction vector. *)
Record Cell : Type := mkCell { x : Z; y : Z }.

Definition INITIAL_SNAKE : list Cell :=
  [ {| x := 10; y := 10 |};
    {| x := 10; y := 11 |};
    {| x := 10; y := 12 |} ].

Definition INITIAL_DIRECTION : Cell := {| x := 0; y := -1 |}.

Definition BASE_SPEED : Z := 150.

Definition WORDS : list string :=
  [ "SERPENTE"; "MELA"; "GIOCO"; "COMPUTER"; "PROGRAMMA";
    "TASTIERA"; "PYTHON"; "REACT"; "JAVASCRIPT"; "CODICE";
    "INFORMATICA"; "SVILUPPO"; "WEB"; "INTERNET"; "SCHERMO";
    "ALGORITMO"; "VARIABILE"; "FUNZIONE"; "SISTEMA"; "RETE" ]%string.

(** [{id, x, y, letter}]: a letter lying on the board. *)
Record Food : Type := mkFood {
  id : string;
  fx : Z;
  fy : Z;
  letter : ascii
}.

Definition foodCell (f : Food) : Cell := {| x := fx f; y := fy f |}.

(** ** Cells *)

(** [a.x === b.x && a.y === b.y] *)
Definition sameCell (a b : Cell) : bool := (x a =? x b) && (y a =? y b).

(** [occupied.some(pos => pos.x === newPos.x && pos.y === newPos.y)] *)
Definition isOccupied (occupied : list Cell) (newPos : Cell) : bool :=
  existsb (fun pos => sameCell pos newPos) occupied.

(** The cells of the board, [0 <= x, y < GRID_SIZE]. *)
Definition inGrid (c : Cell) : Prop :=
  0 <= x c < GRID_SIZE /\ 0 <= y c < GRID_SIZE.

(** ** The random oracle and the outcome of a computation *)

Inductive Outcome (A : Type) : Type :=
| Returned (a : A) (rest : list Q)
| Spinning
| Thrown.

Arguments Returned {A} a rest.
Arguments Spinning {A}.
Arguments Thrown {A}.

(** A computation that may consume draws of [Math.random()]. *)
Definition Rand (A : Type) : Type := list Q -> Outcome A.

Definition ret {A : Type} (a : A) : Rand A := fun ds => Returned a ds.

Definition bind {A B : Type} (m : Rand A) (k : A -> Rand B) : Rand B :=
  fun ds =>
    match m ds with
    | Returned a rest => k a rest
    | Spinning => Spinning
    | Thrown => Thrown
    end.

Definition throw {A : Type} : Rand A := fun _ => Thrown.

Notation "v <- m ;; k" := (bind m (fun v => k))
  (at level 61, m at next level, right associativity).

(** [Math.random()] *)
Definition random : Rand Q :=
  fun ds =>
    match ds with
    | [] => Spinning
    | q :: rest => Returned q rest
    end.

(** [Math.floor(q * n)] *)
Definition floorTimes (q : Q) (n : Z) : Z := Qfloor (q * inject_Z n).

(** What [Math.random()] promises of a draw: [0 <= q < 1]. *)
Definition unitDraw (q : Q) : bool := Qle_bool 0 q && negb (Qle_bool 1 q).

Definition unitDraws (ds : list Q) : bool := forallb unitDraw ds.

(** ** The letter placement generator *)

(** [`${i}-${x}-${y}`] *)
Definition foodId (i : nat) (px py : Z) : string :=
  (NilZero.string_of_uint (Nat.to_uint i) ++ "-"
   ++ NilZero.string_of_int (Z.to_int px) ++ "-"
   ++ NilZero.string_of_int (Z.to_int py))%string.

(** The [while (true)] loop of [generateFoodsForWord]: each round draws [x],
    then [y], and leaves the loop on the first cell that is not occupied. *)
Fixpoint sampleFree (occupied : list Cell) (ds : list Q) : Outcome Cell :=
  match ds with
  | rx :: ry :: ds' =>
      let newPos := {| x := floorTimes rx GRID_SIZE; y := floorTimes ry GRID_SIZE |} in
      if isOccupied occupied newPos then sampleFree occupied ds'
      else Returned newPos ds'
  | _ => Spinning
  end.

(** The [for] loop over the letters [word[i]], [word[i+1]], ...; [letters] is
    the suffix of the word from index [i] on. *)
Fixpoint placeLetters (i : nat) (letters : string)
    (foods : list Food) (occupied : list Cell) : Rand (list Food) :=
  match letters with
  | EmptyString => ret foods
  | String c rest =>
      newPos <- sampleFree occupied ;;
      placeLetters (S i) rest
        (foods ++ [ {| id := foodId i (x newPos) (y newPos);
                       fx := x newPos; fy := y newPos; letter := c |} ])
        (occupied ++ [newPos])
  end.

Definition generateFoodsForWord (word : string) (snake : list Cell) : Rand (list Food) :=
  placeLetters 0 word [] snake.

(** ** The state of the component *)

(** The [useState] cells of [App], the [directionQueue] ref, and the calls
    made so far to [localStorage.setItem('snakeSpellerHighScore', _)], oldest
    first. *)
Record GameState : Type := mkGameState {
  hasStarted : bool;
  snake : list Cell;
  direction : Cell;
  directionQueue : list Cell;
  word : string;
  wordIndex : nat;
  foods : list Food;
  score : Z;
  highScore : Z;
  gameOver : bool;
  isPaused : bool;
  speed : Z;
  setItemCalls : list Z
}.

Definition setHasStarted (v : bool) (st : GameState) : GameState :=
  mkGameState v (snake st) (direction st) (directionQueue st) (word st)
    (wordIndex st) (foods st) (score st) (highScore st) (gameOver st)
    (isPaused st) (speed st) (setItemCalls st).

Definition setSnake (v : list Cell) (st : GameState) : GameState :=
  mkGameState (hasStarted st) v (direction st) (directionQueue st) (word st)
    (wordIndex st) (foods st) (score st) (highScore st) (gameOver st)
    (isPaused st) (speed st) (setItemCalls st).

Definition setDirection (v : Cell) (st : GameState) : GameState :=
  mkGameState (hasStarted st) (snake st) v (directionQueue st) (word st)
    (wordIndex st) (foods st) (score st) (highScore st) (gameOver st)
    (isPaused st) (speed st) (setItemCalls st).

(** Assignment to, or mutation of, [directionQueue.current]. *)
Definition setDirectionQueue (v : list Cell) (st : GameState) : GameState :=
  mkGameState (hasStarted st) (snake st) (direction st) v (word st)
    (wordIndex st) (foods st) (score st) (highScore st) (gameOver st)
    (isPaused st) (speed st) (setItemCalls st).

Definition setWord (v : string) (st : GameState) : GameState :=
  mkGameState (hasStarted st) (snake st) (direction st) (directionQueue st) v
    (wordIndex st) (foods st) (score st) (highScore st) (gameOver st)
    (isPaused st) (speed st) (setItemCalls st).

Definition setWordIndex (v : nat) (st : GameState) : GameState :=
  mkGameState (hasStarted st) (snake st) (direction st) (directionQueue st) (word st)
    v (foods st) (score st) (highScore st) (gameOver st)
    (isPaused st) (speed st) (setItemCalls st).

Definition setFoods (v : list Food) (st : GameState) : GameState :=
  mkGameState (hasStarted st) (snake st) (direction st) (directionQueue st) (word st)
    (wordIndex st) v (score st) (highScore st) (gameOver st)
    (isPaused st) (speed st) (setItemCalls st).

(** [setScore(s => f(s))]; [setScore(v)] is [setScore (fun _ => v)]. *)
Definition setScore (f : Z -> Z) (st : GameState) : GameState :=
  mkGameState (hasStarted st) (snake st) (direction st) (directionQueue st) (word st)
    (wordIndex st) (foods st) (f (score st)) (highScore st) (gameOver st)
    (isPaused st) (speed st) (setItemCalls st).

Definition setHighScore (v : Z) (st : GameState) : GameState :=
  mkGameState (hasStarted st) (snake st) (direction st) (directionQueue st) (word st)
    (wordIndex st) (foods st) (score st) v (gameOver st)
    (isPaused st) (speed st) (setItemCalls st).

Definition setGameOver (v : bool) (st : GameState) : GameState :=
  mkGameState (hasStarted st) (snake st) (direction st) (directionQueue st) (word st)
    (wordIndex st) (foods st) (score st) (highScore st) v
    (isPaused st) (speed st) (setItemCalls st).

(** [setIsPaused(p => f(p))]; [setIsPaused(v)] is [setIsPaused (fun _ => v)]. *)
Definition setIsPaused (f : bool -> bool) (st : GameState) : GameState :=
  mkGameState (hasStarted st) (snake st) (direction st) (directionQueue st) (word st)
    (wordIndex st) (foods st) (score st) (highScore st) (gameOver st)
    (f (isPaused st)) (speed st) (setItemCalls st).

(** [setSpeed(s => f(s))]; [setSpeed(v)] is [setSpeed (fun _ => v)]. *)
Definition setSpeed (f : Z -> Z) (st : GameState) : GameState :=
  mkGameState (hasStarted st) (snake st) (direction st) (directionQueue st) (word st)
    (wordIndex st) (foods st) (score st) (highScore st) (gameOver st)
    (isPaused st) (f (speed st)) (setItemCalls st).

(** [localStorage.setItem('snakeSpellerHighScore', v.toString())] *)
Definition localStorageSetItem (v : Z) (st : GameState) : GameState :=
  mkGameState (hasStarted st) (snake st) (direction st) (directionQueue st) (word st)
    (wordIndex st) (foods st) (score st) (highScore st) (gameOver st)
    (isPaused st) (speed st) (setItemCalls st ++ [v]).

(** ** Array helpers *)

(** [arr.findIndex(p)], with [None] for [-1]. *)
Fixpoint findIndex {A : Type} (p : A -> bool) (arr : list A) : option nat :=
  match arr with
  | [] => None
  | a :: rest =>
      if p a then Some 0%nat
      else match findIndex p rest with
           | Some k => Some (S k)
           | None => None
           end
  end.

(** [arr.splice(i, 1)] on a copy: the array without its element at [i]. *)
Fixpoint splice1 {A : Type} (i : nat) (arr : list A) : list A :=
  match arr, i with
  | [], _ => []
  | _ :: rest, O => rest
  | a :: rest, S k => a :: splice1 k rest
  end.

(** [WORDS[i]]: [None] is [undefined]. *)
Definition wordAt (i : Z) : option string :=
  if i <? 0 then None else nth_error WORDS (Z.to_nat i).

(** [WORDS[Math.floor(Math.random() * WORDS.length)]] *)
Definition randomWord : Rand (option string) :=
  q <- random ;;
  ret (wordAt (floorTimes q (Z.of_nat (List.length WORDS)))).

(** [f.letter === word[wordIndex]]; [word[wordIndex]] is [undefined] past the
    end of the word and then equals no letter. *)
Definition letterMatches (f : Food) (word : string) (wordIndex : nat) : bool :=
  match String.get wordIndex word with
  | Some c => Ascii.eqb (letter f) c
  | None => false
  end.

(** ** The tick callback *)

(** [head + currentNextDir] *)
Definition advance (head dir : Cell) : Cell :=
  {| x := x head + x dir; y := y head + y dir |}.

(** The wall test of the callback. *)
Definition hitsWall (newHead : Cell) : bool :=
  (x newHead <? 0) || (x newHead >=? GRID_SIZE) ||
  (y newHead <? 0) || (y newHead >=? GRID_SIZE).

(** [snake.some(segment => segment.x === newHead.x && segment.y === newHead.y)] *)
Definition hitsSelf (snake : list Cell) (newHead : Cell) : bool :=
  existsb (fun segment => sameCell segment newHead) snake.

(** [f => f.x === newHead.x && f.y === newHead.y] *)
Definition onFood (newHead : Cell) (f : Food) : bool :=
  (fx f =? x newHead) && (fy f =? y newHead).

(** The direction the tick moves in, and the state once the queue has been
    shifted and [setDirection] queued. *)
Definition takeDirection (st : GameState) : Cell * GameState :=
  match directionQueue st with
  | [] => (direction st, st)
  | currentNextDir :: rest =>
      (currentNextDir, setDirection currentNextDir (setDirectionQueue rest st))
  end.

(** The callback passed to [useInterval]. *)
Definition step (st : GameState) : Rand GameState :=
  if negb (hasStarted st) || gameOver st || isPaused st then ret st
  else
    let (currentNextDir, st1) := takeDirection st in
    match snake st with
    | [] => throw
    | head :: _ =>
        let newHead := advance head currentNextDir in
        if hitsWall newHead then ret (setGameOver true st1)
        else if hitsSelf (snake st) newHead then ret (setGameOver true st1)
        else
          let newSnake := newHead :: snake st in
          match findIndex (onFood newHead) (foods st) with
          | Some eatenFoodIndex =>
              match nth_error (foods st) eatenFoodIndex with
              | None => throw
              | Some eatenFood =>
                  if letterMatches eatenFood (word st) (wordIndex st) then
                    let st2 := setScore (fun s => s + 10) st1 in
                    let newFoods := splice1 eatenFoodIndex (foods st) in
                    let nextIndex := S (wordIndex st) in
                    if (String.length (word st) <=? nextIndex)%nat then
                      let st3 := setScore (fun s => s + 50) st2 in
                      picked <- randomWord ;;
                      match picked with
                      | None => throw
                      | Some nextWord =>
                          newFoods' <- generateFoodsForWord nextWord newSnake ;;
                          ret (setSnake newSnake
                                 (setSpeed (fun s => Z.max 60 (s - 5))
                                    (setFoods newFoods'
                                       (setWordIndex 0 (setWord nextWord st3)))))
                      end
                    else
                      ret (setSnake newSnake
                             (setFoods newFoods (setWordIndex nextIndex st2)))
                  else ret (setGameOver true st1)
              end
          | None => ret (setSnake (removelast newSnake) st1)
          end
    end.

(** ** Direction input *)

(** The direction a new input is checked against: the last queued direction,
    or the committed one when the queue is empty. *)
Definition lastDir (st : GameState) : Cell :=
  List.last (directionQueue st) (direction st).

(** [lastDir.x !== newDir.x || lastDir.y !== newDir.y] *)
Definition differs (a b : Cell) : bool :=
  negb (x a =? x b) || negb (y a =? y b).

(** [directionQueue.current.push(newDir)] when it differs from [lastDir]. *)
Definition pushIfNew (newDir : Cell) (st : GameState) : GameState :=
  if differs (lastDir st) newDir
  then setDirectionQueue (directionQueue st ++ [newDir]) st
  else st.

Definition keyIn (key : string) (keys : list string) : bool :=
  existsb (String.eqb key) keys.

(** The [switch (e.key)] of [handleKeyDown]: [Some None] is [newDir = null],
    [None] is the pause case, which returns from the handler. *)
Definition keySwitch (key : string) (lastDir : Cell) : option (option Cell) :=
  if keyIn key ["ArrowUp"; "w"; "W"]%string then
    Some (if negb (y lastDir =? 1) then Some {| x := 0; y := -1 |} else None)
  else if keyIn key ["ArrowDown"; "s"; "S"]%string then
    Some (if negb (y lastDir =? -1) then Some {| x := 0; y := 1 |} else None)
  else if keyIn key ["ArrowLeft"; "a"; "A"]%string then
    Some (if negb (x lastDir =? 1) then Some {| x := -1; y := 0 |} else None)
  else if keyIn key ["ArrowRight"; "d"; "D"]%string then
    Some (if negb (x lastDir =? -1) then Some {| x := 1; y := 0 |} else None)
  else if keyIn key [" "; "Escape"]%string then None
  else Some None.

(** The [keydown] listener. *)
Definition handleKeyDown (key : string) (st : GameState) : GameState :=
  if negb (hasStarted st) || gameOver st then st
  else
    match keySwitch key (lastDir st) with
    | None => setIsPaused negb st
    | Some None => st
    | Some (Some newDir) => pushIfNew newDir st
    end.

(** The handler of the on-screen direction buttons. *)
Definition handleDirectionClick (newDir : Cell) (st : GameState) : GameState :=
  if negb (hasStarted st) || gameOver st || isPaused st then st
  else if negb (x (lastDir st) =? 0) && (x newDir =? - x (lastDir st)) then st
  else if negb (y (lastDir st) =? 0) && (y newDir =? - y (lastDir st)) then st
  else pushIfNew newDir st.

(** ** Start, reset and the high-score effect *)

Definition startGame (st : GameState) : GameState := setHasStarted true st.

(** [resetGame]; on an [undefined] word [generateFoodsForWord] throws at
    [word.length]. *)
Definition resetGame (st : GameState) : Rand GameState :=
  picked <- randomWord ;;
  match picked with
  | None => throw
  | Some newWord =>
      newFoods <- generateFoodsForWord newWord INITIAL_SNAKE ;;
      ret (setIsPaused (fun _ => false)
            (setGameOver false
              (setSpeed (fun _ => BASE_SPEED)
                (setScore (fun _ => 0)
                  (setFoods newFoods
                    (setWordIndex 0
                      (setWord newWord
                        (setDirectionQueue []
                          (setDirection INITIAL_DIRECTION
                            (setSnake INITIAL_SNAKE st))))))))))
  end.

(** The body of the effect with dependencies [[score, highScore]]. *)
Definition highScoreEffect (st : GameState) : GameState :=
  if score st >? highScore st
  then localStorageSetItem (score st) (setHighScore (score st) st)
  else st.

(** After a render the effect runs when one of its dependencies changed.
    The render its own [setHighScore] causes runs it once more, which does
    nothing: see [highScoreEffect_idempotent]. *)
Definition afterRender (prev st : GameState) : GameState :=
  if (score st =? score prev) && (highScore st =? highScore prev) then st
  else highScoreEffect st.

(** The first render: [saved] is the integer read from [localStorage], if
    any; every effect runs once after it. *)
Definition mount (saved : option Z) : Rand GameState :=
  match wordAt 0 with
  | None => throw
  | Some word0 =>
      foods0 <- generateFoodsForWord word0 INITIAL_SNAKE ;;
      ret (highScoreEffect
             {| hasStarted := false;
                snake := INITIAL_SNAKE;
                direction := INITIAL_DIRECTION;
                directionQueue := [];
                word := word0;
                wordIndex := 0;
                foods := foods0;
                score := 0;
                highScore := match saved with Some v => v | None => 0 end;
                gameOver := false;
                isPaused := false;
                speed := BASE_SPEED;
                setItemCalls := [] |})
  end.

(** ** Events *)

(** The four on-screen direction buttons. *)
Inductive DirectionButton : Type := ChevronUp | ChevronLeft | ChevronDown | ChevronRight.

Definition buttonDir (b : DirectionButton) : Cell :=
  match b with
  | ChevronUp => {| x := 0; y := -1 |}
  | ChevronLeft => {| x := -1; y := 0 |}
  | ChevronDown => {| x := 0; y := 1 |}
  | ChevronRight => {| x := 1; y := 0 |}
  end.

(** What can happen to the mounted component: a timer tick, a key press, or
    a click on one of its buttons. *)
Inductive Event : Type :=
| Tick
| KeyDown (key : string)
| DirectionClick (b : DirectionButton)
| PauseClick
| ResumeClick
| StartClick
| ResetClick.

(** The handler an event runs.  The start, reset and resume buttons exist
    only while their overlay is rendered; a click that has no button does
    nothing. *)
Definition handle (ev : Event) (st : GameState) : Rand GameState :=
  match ev with
  | Tick => step st
  | KeyDown key => ret (handleKeyDown key st)
  | DirectionClick b => ret (handleDirectionClick (buttonDir b) st)
  | PauseClick =>
      ret (if hasStarted st && negb (gameOver st)
           then setIsPaused (fun _ => negb (isPaused st)) st else st)
  | ResumeClick =>
      ret (if isPaused st && negb (gameOver st) && hasStarted st
           then setIsPaused (fun _ => false) st else st)
  | StartClick => ret (if negb (hasStarted st) then startGame st else st)
  | ResetClick => if gameOver st then resetGame st else ret st
  end.

(** An event, the render it causes, and the effects after the render. *)
Definition dispatch (ev : Event) (st : GameState) : Rand GameState :=
  st' <- handle ev st ;;
  ret (afterRender st st').

(** The states the component can be in. *)
Inductive Reachable : GameState -> Prop :=
| reach_mount (saved : option Z) (ds rest : list Q) (st : GameState) :
    mount saved ds = Returned st rest -> Reachable st
| reach_dispatch (st st' : GameState) (ev : Event) (ds rest : list Q) :
    Reachable st -> dispatch ev st ds = Returned st' rest -> Reachable st'.

(** * Specification vocabulary *)

Definition Cell_eq_dec (a b : Cell) : {a = b} + {a <> b}.
Proof. decide equality; apply Z.eq_dec. Defined.

(** The cells the sampling loop will try, in order: every round of the loop
    turns the next two draws into one cell. *)
Fixpoint candidates (ds : list Q) : list Cell :=
  match ds with
  | rx :: ry :: ds' =>
      {| x := floorTimes rx GRID_SIZE; y := floorTimes ry GRID_SIZE |} :: candidates ds'
  | _ => []
  end.

Definition freeIn (occupied : list Cell) (c : Cell) : bool :=
  negb (isOccupied occupied c).

(** The distinct cells among the candidates that are not occupied. *)
Definition freshCandidates (occupied : list Cell) (ds : list Q) : list Cell :=
  nodup Cell_eq_dec (filter (freeIn occupied) (candidates ds)).

(** Every cell of the board, row by row. *)
Definition allCells : list Cell :=
  flat_map (fun i => map (fun j => {| x := Z.of_nat i; y := Z.of_nat j |})
                         (seq 0 (Z.to_nat GRID_SIZE)))
           (seq 0 (Z.to_nat GRID_SIZE)).

(** The occupied cells leave no cell of the board free. *)
Definition coversGrid (occupied : list Cell) : bool :=
  forallb (isOccupied occupied) allCells.

(** Phase Running: started, not over, not paused. *)
Definition running (st : GameState) : bool :=
  hasStarted st && negb (gameOver st) && negb (isPaused st).

(** Phase Paused: started, not over, paused. *)
Definition paused (st : GameState) : bool :=
  hasStarted st && negb (gameOver st) && isPaused st.

(** The direction a tick commits: the oldest queued one, else the current. *)
Definition nextDirection (st : GameState) : Cell :=
  match directionQueue st with
  | [] => direction st
  | d :: _ => d
  end.

(** [-d] *)
Definition opposite (d : Cell) : Cell := {| x := - x d; y := - y d |}.

(** The four unit vectors. *)
Definition unitDir (d : Cell) : bool :=
  existsb (sameCell d)
    [ {| x := 0; y := -1 |}; {| x := 0; y := 1 |};
      {| x := -1; y := 0 |}; {| x := 1; y := 0 |} ].

(** Every queued direction is a turn: neither its predecessor (the committed
    direction for the oldest) nor the reversal of it. *)
Fixpoint turnsFrom (ref : Cell) (queue : list Cell) : Prop :=
  match queue with
  | [] => True
  | d :: queue' => d <> ref /\ d <> opposite ref /\ turnsFrom d queue'
  end.

(** [st'] is [st] but for the direction the tick commits, the queue it
    shifts and, possibly, the [gameOver] flag. *)
Definition onlyDirectionCommitted (st st' : GameState) : Prop :=
  direction st' = nextDirection st /\
  directionQueue st' = tl (directionQueue st) /\
  hasStarted st' = hasStarted st /\
  snake st' = snake st /\
  word st' = word st /\
  wordIndex st' = wordIndex st /\
  foods st' = foods st /\
  score st' = score st /\
  highScore st' = highScore st /\
  isPaused st' = isPaused st /\
  speed st' = speed st /\
  setItemCalls st' = setItemCalls st.

(** The tick as a relation: the six ways the callback can return. *)
Inductive Ticks (st : GameState) : list Q -> GameState -> list Q -> Prop :=
| tick_idle (ds : list Q) :
    running st = false ->
    Ticks st ds st ds
| tick_collision (ds : list Q) (head : Cell) (body : list Cell) :
    running st = true ->
    snake st = head :: body ->
    hitsWall (advance head (nextDirection st))
      || hitsSelf (snake st) (advance head (nextDirection st)) = true ->
    Ticks st ds (setGameOver true (snd (takeDirection st))) ds
| tick_move (ds : list Q) (head : Cell) (body : list Cell) :
    running st = true ->
    snake st = head :: body ->
    hitsWall (advance head (nextDirection st))
      || hitsSelf (snake st) (advance head (nextDirection st)) = false ->
    findIndex (onFood (advance head (nextDirection st))) (foods st) = None ->
    Ticks st ds
      (setSnake (removelast (advance head (nextDirection st) :: snake st))
         (snd (takeDirection st))) ds
| tick_wrong_letter (ds : list Q) (head : Cell) (body : list Cell)
    (i : nat) (f : Food) :
    running st = true ->
    snake st = head :: body ->
    hitsWall (advance head (nextDirection st))
      || hitsSelf (snake st) (advance head (nextDirection st)) = false ->
    findIndex (onFood (advance head (nextDirection st))) (foods st) = Some i ->
    nth_error (foods st) i = Some f ->
    letterMatches f (word st) (wordIndex st) = false ->
    Ticks st ds (setGameOver true (snd (takeDirection st))) ds
| tick_eat (ds : list Q) (head : Cell) (body : list Cell) (i : nat) (f : Food) :
    running st = true ->
    snake st = head :: body ->
    hitsWall (advance head (nextDirection st))
      || hitsSelf (snake st) (advance head (nextDirection st)) = false ->
    findIndex (onFood (advance head (nextDirection st))) (foods st) = Some i ->
    nth_error (foods st) i = Some f ->
    letterMatches f (word st) (wordIndex st) = true ->
    (S (wordIndex st) < String.length (word st))%nat ->
    Ticks st ds
      (setSnake (advance head (nextDirection st) :: snake st)
         (setFoods (splice1 i (foods st))
            (setWordIndex (S (wordIndex st))
               (setScore (fun s => s + 10) (snd (takeDirection st)))))) ds
| tick_complete (q : Q) (ds rest : list Q) (head : Cell) (body : list Cell)
    (i : nat) (f : Food) (nextWord : string) (newFoods : list Food) :
    running st = true ->
    snake st = head :: body ->
    hitsWall (advance head (nextDirection st))
      || hitsSelf (snake st) (advance head (nextDirection st)) = false ->
    findIndex (onFood (advance head (nextDirection st))) (foods st) = Some i ->
    nth_error (foods st) i = Some f ->
    letterMatches f (word st) (wordIndex st) = true ->
    (String.length (word st) <= S (wordIndex st))%nat ->
    wordAt (floorTimes q (Z.of_nat (List.length WORDS))) = Some nextWord ->
    generateFoodsForWord nextWord (advance head (nextDirection st) :: snake st) ds
      = Returned newFoods rest ->
    Ticks st (q :: ds)
      (setSnake (advance head (nextDirection st) :: snake st)
         (setSpeed (fun s => Z.max 60 (s - 5))
            (setFoods newFoods
               (setWordIndex 0
                  (setWord nextWord
                     (setScore (fun s => s + 50)
                        (setScore (fun s => s + 10) (snd (takeDirection st))))))))) rest.

(** The queue after a key press or a button click: untouched, or longer by
    one direction that is a unit vector, differs from the reference and is
    not its reversal. *)
Definition queueGrowsByTurn (st st' : GameState) : Prop :=
  directionQueue st' = directionQueue st \/
  exists d,
    directionQueue st' = directionQueue st ++ [d] /\
    unitDir d = true /\ d <> lastDir st /\ d <> opposite (lastDir st).

(** What one tick leaves alone, and the little it changes. *)
Record TickFrame (st st' : GameState) : Prop := mkTickFrame {
  tf_hasStarted : hasStarted st' = hasStarted st;
  tf_isPaused : isPaused st' = isPaused st;
  tf_highScore : highScore st' = highScore st;
  tf_store : setItemCalls st' = setItemCalls st;
  tf_direction :
    (running st = false /\ st' = st) \/
    (running st = true /\ direction st' = nextDirection st /\
     directionQueue st' = tl (directionQueue st));
  tf_score :
    score st' = score st \/
    (running st = true /\ gameOver st' = false /\
     (score st' = score st + 10 \/ score st' = score st + 60));
  tf_snake : snake st <> [] -> snake st' <> []
}.

(** What holds of every state the component reaches. *)
Record Invariant (st : GameState) : Prop := mkInvariant {
  inv_direction : unitDir (direction st) = true;
  inv_queue_units : forallb unitDir (directionQueue st) = true;
  inv_queue_turns : turnsFrom (direction st) (directionQueue st);
  inv_snake : snake st <> [];
  inv_score_idle : hasStarted st = false -> score st = 0;
  inv_score_nonneg : 0 <= score st;
  inv_high : score st <= highScore st
}.

(** What the handler of an event has done when it returns, on a state that
    satisfies the invariant above. *)
Record HandleFacts (ev : Event) (st st1 : GameState) : Prop := mkHandleFacts {
  hf_highScore : highScore st1 = highScore st;
  hf_store : setItemCalls st1 = setItemCalls st;
  hf_unit : unitDir (direction st1) = true;
  hf_units : forallb unitDir (directionQueue st1) = true;
  hf_turns : turnsFrom (direction st1) (directionQueue st1);
  hf_snake : snake st1 <> [];
  hf_idle : hasStarted st1 = false -> score st1 = 0;
  hf_nonneg : 0 <= score st1;
  hf_no_reversal : ev <> ResetClick -> direction st1 <> opposite (direction st);
  hf_push :
    forall d, directionQueue st1 = directionQueue st ++ [d] ->
              d <> lastDir st /\ d <> opposite (lastDir st);
  hf_over : gameOver st = false -> gameOver st1 = true -> score st1 = score st;
  hf_score :
    match ev with
    | ResetClick =>
        (gameOver st = true -> score st1 = 0) /\
        (gameOver st = false -> score st1 = score st)
    | Tick =>
        score st1 = score st \/
        (running st = true /\ gameOver st1 = false /\
         (score st1 = score st + 10 \/ score st1 = score st + 60))
    | _ => score st1 = score st
    end
}.

(** The direction a key stands for, read off the key switch with a
    reference that blocks nothing. *)
Definition keyDirection (key : string) : option Cell :=
  match keySwitch key {| x := 0; y := 0 |} with
  | Some (Some d) => Some d
  | _ => None
  end.

(** [n] timer ticks in a row, each followed by its render. *)
Fixpoint ticks (n : nat) (st : GameState) : Rand GameState :=
  match n with
  | O => ret st
  | S n' => st' <- dispatch Tick st ;; ticks n' st'
  end.

(** ** Worked inputs *)

(** Draws that sample (10,10) and (10,11), both on the initial snake, then
    (0,0) twice, (1,19) and (15,5). *)
Definition drawsWEB : list Q :=
  [ 1#2; 1#2;  1#2; 11#20;  0; 0;  0; 0;  1#20; 19#20;  3#4; 1#4 ]%Q.

(** The running game of the specification's scenario: the initial snake
    heading up, word "AB", a letter [l] right above the head and 'B' at
    (5,5). *)
Definition scenario (l : ascii) : GameState :=
  {| hasStarted := true;
     snake := INITIAL_SNAKE;
     direction := INITIAL_DIRECTION;
     directionQueue := [];
     word := "AB";
     wordIndex := 0;
     foods := [ {| id := foodId 0 10 9; fx := 10; fy := 9; letter := l |};
                {| id := foodId 1 5 5; fx := 5; fy := 5; letter := "B" |} ];
     score := 0;
     highScore := 0;
     gameOver := false;
     isPaused := false;
     speed := BASE_SPEED;
     setItemCalls := [] |}.

(** The same game one letter later: 'A' eaten, 'B' right above the head. *)
Definition lastLetter : GameState :=
  {| hasStarted := true;
     snake := INITIAL_SNAKE;
     direction := INITIAL_DIRECTION;
     directionQueue := [];
     word := "AB";
     wordIndex := 1;
     foods := [ {| id := foodId 1 10 9; fx := 10; fy := 9; letter := "B" |} ];
     score := 10;
     highScore := 10;
     gameOver := false;
     isPaused := false;
     speed := BASE_SPEED;
     setItemCalls := [10] |}.

(** A running game whose snake is about to leave the board on the left. *)
Definition atLeftWall : GameState :=
  {| hasStarted := true;
     snake := [ {| x := 0; y := 5 |}; {| x := 1; y := 5 |}; {| x := 2; y := 5 |} ];
     direction := {| x := 0; y := -1 |};
     directionQueue := [ {| x := -1; y := 0 |} ];
     word := "AB";
     wordIndex := 0;
     foods := [ {| id := foodId 0 10 9; fx := 10; fy := 9; letter := "A" |};
                {| id := foodId 1 5 5; fx := 5; fy := 5; letter := "B" |} ];
     score := 0;
     highScore := 0;
     gameOver := false;
     isPaused := false;
     speed := BASE_SPEED;
     setItemCalls := [] |}.

(** Draws that place the letters of "SERPENTE" at (10,9), (0,0), (1,1),
    (2,2), (3,3), (4,4), (5,5) and (6,6). *)
Definition drawsMount : list Q :=
  [ 1#2; 9#20;  0; 0;  1#20; 1#20;  1#10; 1#10;
    3#20; 3#20;  1#5; 1#5;  1#4; 1#4;  3#10; 3#10 ]%Q.

(** The component mounted with these draws and nothing in the store. *)
Definition mounted : GameState :=
  Eval vm_compute in
    match mount None drawsMount with
    | Returned st _ => st
    | _ => scenario "A"
    end.

(** ... after a click on the start button, *)
Definition started : GameState := startGame mounted.

(** ... and after the space bar has paused it. *)
Definition pausedGame : GameState := setIsPaused negb started.

(** ** Vocabulary for the board, the flags and the store *)

(** The letters of a word, as a list. *)
Definition lettersOf (w : string) : list ascii := list_ascii_of_string w.

(** What the board of a reachable state looks like. *)
Record Board (st : GameState) : Prop := mkBoard {
  bd_snake_grid : Forall inGrid (snake st);
  bd_snake_nodup : NoDup (snake st);
  bd_snake_len : (3 <= List.length (snake st))%nat;
  bd_foods_nodup : NoDup (map foodCell (foods st));
  bd_foods_off : forall f, In f (foods st) -> ~ In (foodCell f) (snake st);
  bd_word : In (word st) WORDS;
  bd_index : (wordIndex st < String.length (word st))%nat;
  bd_letters :
    Permutation (map letter (foods st)) (skipn (wordIndex st) (lettersOf (word st)));
  bd_speed : 60 <= speed st <= BASE_SPEED;
  bd_over : gameOver st = true -> hasStarted st = true;
  bd_paused : isPaused st = true -> hasStarted st = true
}.

(** What a handler other than the tick and the reset leaves alone. *)
Record QuietFrame (st st1 : GameState) : Prop := mkQuietFrame {
  qf_snake : snake st1 = snake st;
  qf_foods : foods st1 = foods st;
  qf_word : word st1 = word st;
  qf_wordIndex : wordIndex st1 = wordIndex st;
  qf_speed : speed st1 = speed st;
  qf_gameOver : gameOver st1 = gameOver st;
  qf_started : hasStarted st = true -> hasStarted st1 = true;
  qf_paused : hasStarted st1 = true \/ isPaused st1 = isPaused st
}.

(** A log whose entries grow strictly. *)
Fixpoint increasing (log : list Z) : Prop :=
  match log with
  | a :: (b :: _) as rest => a < b /\ increasing rest
  | _ => True
  end.

(** The calls to the store against the high score held in state. *)
Record StoreLog (st : GameState) : Prop := mkStoreLog {
  sl_bound : Forall (fun v => v <= highScore st) (setItemCalls st);
  sl_last : List.last (setItemCalls st) (highScore st) = highScore st;
  sl_increasing : increasing (setItemCalls st)
}.

(** Consecutive cells of a snake are one unit step apart, each cell lying
    one step ahead of the next. *)
Fixpoint connected (cells : list Cell) : Prop :=
  match cells with
  | a :: (b :: _) as rest =>
      unitDir {| x := x a - x b; y := y a - y b |} = true /\ connected rest
  | _ => True
  end.

(** The overlays of the game board. *)
Inductive Overlay : Type := StartOverlay | GameOverOverlay | PauseOverlay.

(** The overlays the component renders over the board:
    [{!hasStarted && ...}], [{gameOver && ...}] and
    [{isPaused && !gameOver && hasStarted && ...}]. *)
Definition overlays (st : GameState) : list Overlay :=
  (if negb (hasStarted st) then [StartOverlay] else []) ++
  (if gameOver st then [GameOverOverlay] else []) ++
  (if isPaused st && negb (gameOver st) && hasStarted st then [PauseOverlay] else []).

(** The arrow key that stands for the direction of an on-screen button. *)
Definition arrowKey (b : DirectionButton) : string :=
  match b with
  | ChevronUp => "ArrowUp"
  | ChevronLeft => "ArrowLeft"
  | ChevronDown => "ArrowDown"
  | ChevronRight => "ArrowRight"
  end.

(** ... and the started game after eleven ticks: it has eaten 'S' and then
    left the board at the top. *)
Definition crashed : GameState :=
  Eval vm_compute in
    match ticks 11 started [] with
    | Returned st _ => st
    | _ => started
    end.

(** Draws that sample the eleven cells (0,0), (1,0), ..., (10,0). *)
Definition drawsRow : list Q :=
  [ 0; 0;  1#20; 0;  1#10; 0;  3#20; 0;  1#5; 0;  1#4; 0;
    3#10; 0;  7#20; 0;  2#5; 0;  9#20; 0;  1#2; 0 ]%Q.

(** No character of the string is a dash. *)
Fixpoint dashless (s : string) : bool :=
  match s with
  | EmptyString => true
  | String c rest => negb (Ascii.eqb c "-") && dashless rest
  end.

(** The states the component can be in when every draw is one that
    [Math.random()] can give. *)
Inductive ReachableFair : GameState -> Prop :=
| fair_mount (saved : option Z) (ds rest : list Q) (st : GameState) :
    unitDraws ds = true ->
    mount saved ds = Returned st rest -> ReachableFair st
| fair_dispatch (st st' : GameState) (ev : Event) (ds rest : list Q) :
    ReachableFair st ->
    unitDraws ds = true ->
    dispatch ev st ds = Returned st' rest -> ReachableFair st'.

(** The books of a game that has completed [k] words: 10 points for every
    cell the snake has grown, 50 more for every word, and a delay lowered by
    5 for every word, down to 60. *)
Definition accounts (st : GameState) (k : Z) : Prop :=
  0 <= k /\
  score st = 10 * (Z.of_nat (List.length (snake st)) - 3) + 50 * k /\
  speed st = Z.max 60 (BASE_SPEED - 5 * k).

(** ** A game played until the board is nearly full *)

(** A run of events, each with the draws it may consume. *)
Fixpoint play (script : list (Event * list Q)) (st : GameState) : option GameState :=
  match script with
  | [] => Some st
  | (ev, ds) :: script' =>
      match dispatch ev st ds with
      | Returned st' _ => play script' st'
      | _ => None
      end
  end.

(** The draws that sample the cell [(cx, cy)]. *)
Definition cellDraws (cx cy : Z) : list Q := [ Qmake cx 20; Qmake cy 20 ].

(** Draws that place the letters of "SERPENTE" straight above the head, at
    (10,9), (10,8), ..., (10,2). *)
Definition drawsAhead : list Q :=
  flat_map (fun cy => cellDraws 10 cy) [9; 8; 7; 6; 5; 4; 3; 2].

(** A start, then 394 ticks that each eat the due letter, with the arrow
    keys that steer the snake up column 10, down and up the columns right of
    it, through the bottom rows and up and down the columns left of it.
    [t] is a tick; [g] a tick that completes the word, draws "WEB" and places
    its letters on the next three cells of the way. *)
Definition fillScript : list (Event * list Q) :=
  let s := (StartClick, @nil Q) in
  let t := (Tick, @nil Q) in
  let u := (KeyDown "ArrowUp", @nil Q) in
  let d := (KeyDown "ArrowDown", @nil Q) in
  let l := (KeyDown "ArrowLeft", @nil Q) in
  let r := (KeyDown "ArrowRight", @nil Q) in
  let g := fun a b c d' e f =>
             (Tick, (3#5)%Q :: cellDraws a b ++ cellDraws c d' ++ cellDraws e f) in
    [ s; t; t; t; t; t; t; t; (g 10 1 10 0 11 0); t; t; r; (g 11 1 11 2 11 3);
      d; t; t; (g 11 4 11 5 11 6); t; t; (g 11 7 11 8 11 9); t; t;
      (g 11 10 11 11 11 12); t; t; (g 12 12 12 11 12 10); r; t; u; t;
      (g 12 9 12 8 12 7); t; t; (g 12 6 12 5 12 4); t; t; (g 12 3 12 2 12 1);
      t; t; (g 12 0 13 0 13 1); t; r; t; d; (g 13 2 13 3 13 4); t; t;
      (g 13 5 13 6 13 7); t; t; (g 13 8 13 9 13 10); t; t;
      (g 13 11 13 12 14 12); t; t; r; (g 14 11 14 10 14 9); u; t; t;
      (g 14 8 14 7 14 6); t; t; (g 14 5 14 4 14 3); t; t; (g 14 2 14 1 14 0);
      t; t; (g 15 0 15 1 15 2); r; t; d; t; (g 15 3 15 4 15 5); t; t;
      (g 15 6 15 7 15 8); t; t; (g 15 9 15 10 15 11); t; t;
      (g 15 12 16 12 16 11); t; r; t; u; (g 16 10 16 9 16 8); t; t;
      (g 16 7 16 6 16 5); t; t; (g 16 4 16 3 16 2); t; t; (g 16 1 16 0 17 0);
      t; t; r; (g 17 1 17 2 17 3); d; t; t; (g 17 4 17 5 17 6); t; t;
      (g 17 7 17 8 17 9); t; t; (g 17 10 17 11 17 12); t; t;
      (g 18 12 18 11 18 10); r; t; u; t; (g 18 9 18 8 18 7); t; t;
      (g 18 6 18 5 18 4); t; t; (g 18 3 18 2 18 1); t; t; (g 18 0 19 0 19 1);
      t; r; t; d; (g 19 2 19 3 19 4); t; t; (g 19 5 19 6 19 7); t; t;
      (g 19 8 19 9 19 10); t; t; (g 19 11 19 12 19 13); t; t;
      (g 19 14 19 15 19 16); t; t; (g 19 17 19 18 19 19); t; t;
      (g 18 19 18 18 18 17); l; t; u; t; (g 18 16 18 15 18 14); t; t;
      (g 18 13 17 13 17 14); t; l; t; d; (g 17 15 17 16 17 17); t; t;
      (g 17 18 17 19 16 19); t; t; l; (g 16 18 16 17 16 16); u; t; t;
      (g 16 15 16 14 16 13); t; t; (g 15 13 15 14 15 15); l; t; d; t;
      (g 15 16 15 17 15 18); t; t; (g 15 19 14 19 14 18); t; l; t; u;
      (g 14 17 14 16 14 15); t; t; (g 14 14 14 13 13 13); t; t; l;
      (g 13 14 13 15 13 16); d; t; t; (g 13 17 13 18 13 19); t; t;
      (g 12 19 12 18 12 17); l; t; u; t; (g 12 16 12 15 12 14); t; t;
      (g 12 13 11 13 11 14); t; l; t; d; (g 11 15 11 16 11 17); t; t;
      (g 11 18 11 19 10 19); t; t; l; (g 10 18 10 17 10 16); u; t; t;
      (g 10 15 10 14 10 13); t; t; (g 9 13 9 14 9 15); l; t; d; t;
      (g 9 16 9 17 9 18); t; t; (g 9 19 8 19 8 18); t; l; t; u;
      (g 8 17 8 16 8 15); t; t; (g 8 14 8 13 7 13); t; t; l;
      (g 7 14 7 15 7 16); d; t; t; (g 7 17 7 18 7 19); t; t;
      (g 6 19 6 18 6 17); l; t; u; t; (g 6 16 6 15 6 14); t; t;
      (g 6 13 5 13 5 14); t; l; t; d; (g 5 15 5 16 5 17); t; t;
      (g 5 18 5 19 4 19); t; t; l; (g 4 18 4 17 4 16); u; t; t;
      (g 4 15 4 14 4 13); t; t; (g 3 13 3 14 3 15); l; t; d; t;
      (g 3 16 3 17 3 18); t; t; (g 3 19 2 19 2 18); t; l; t; u;
      (g 2 17 2 16 2 15); t; t; (g 2 14 2 13 1 13); t; t; l;
      (g 1 14 1 15 1 16); d; t; t; (g 1 17 1 18 1 19); t; t;
      (g 0 19 0 18 0 17); l; t; u; t; (g 0 16 0 15 0 14); t; t;
      (g 0 13 0 12 0 11); t; t; (g 0 10 0 9 0 8); t; t; (g 0 7 0 6 0 5); t; t;
      (g 0 4 0 3 0 2); t; t; (g 0 1 0 0 1 0); t; t; r; (g 1 1 1 2 1 3); d; t;
      t; (g 1 4 1 5 1 6); t; t; (g 1 7 1 8 1 9); t; t; (g 1 10 1 11 1 12); t;
      t; (g 2 12 2 11 2 10); r; t; u; t; (g 2 9 2 8 2 7); t; t;
      (g 2 6 2 5 2 4); t; t; (g 2 3 2 2 2 1); t; t; (g 2 0 3 0 3 1); t; r; t;
      d; (g 3 2 3 3 3 4); t; t; (g 3 5 3 6 3 7); t; t; (g 3 8 3 9 3 10); t; t;
      (g 3 11 3 12 4 12); t; t; r; (g 4 11 4 10 4 9); u; t; t; (g 4 8 4 7 4 6);
      t; t; (g 4 5 4 4 4 3); t; t; (g 4 2 4 1 4 0); t; t; (g 5 0 5 1 5 2); r;
      t; d; t; (g 5 3 5 4 5 5); t; t; (g 5 6 5 7 5 8); t; t; (g 5 9 5 10 5 11);
      t; t; (g 5 12 6 12 6 11); t; r; t; u; (g 6 10 6 9 6 8); t; t;
      (g 6 7 6 6 6 5); t; t; (g 6 4 6 3 6 2); t; t; (g 6 1 6 0 7 0); t; t; r;
      (g 7 1 7 2 7 3); d; t; t; (g 7 4 7 5 7 6); t; t; (g 7 7 7 8 7 9); t; t;
      (g 7 10 7 11 7 12); t; t; (g 8 12 8 11 8 10); r; t; u; t;
      (g 8 9 8 8 8 7); t; t; (g 8 6 8 5 8 4); t; t; (g 8 3 8 2 8 1); t; t;
      (g 8 0 9 0 9 1); t; r; t; d; (g 9 2 9 3 9 4); t; t; (g 9 5 9 6 9 7); t;
      t; (g 9 8 9 9 9 10); t; t ].

(** The game after this run: the snake has 397 cells, the last letter of
    "WEB" lies right below its head and two cells of the board are free. *)
Definition nearlyFull : GameState :=
  Eval vm_compute in
    match mount None drawsAhead with
    | Returned st _ =>
        match play fillScript st with
        | Some st' => st'
        | None => st
        end
    | _ => scenario "A"
    end.

(** ** Counting the completed words *)

(** Whether the tick callback, run on [st], reaches the branch
    [nextIndex >= word.length]: the game is running, the new head hits
    neither a wall nor the snake, lies on a food item, this item carries the
    expected letter and that letter is the last one of the word. *)
Definition completesWord (st : GameState) : bool :=
  if negb (hasStarted st) || gameOver st || isPaused st then false
  else
    let (currentNextDir, _) := takeDirection st in
    match snake st with
    | [] => false
    | head :: _ =>
        let newHead := advance head currentNextDir in
        if hitsWall newHead then false
        else if hitsSelf (snake st) newHead then false
        else
          match findIndex (onFood newHead) (foods st) with
          | Some eatenFoodIndex =>
              match nth_error (foods st) eatenFoodIndex with
              | None => false
              | Some eatenFood =>
                  if letterMatches eatenFood (word st) (wordIndex st)
                  then (String.length (word st) <=? S (wordIndex st))%nat
                  else false
              end
          | None => false
          end
    end.

(** The number of words completed since the last reset, after event [ev]
    has been handled in [st] where the number was [k]: a tick that completes
    a word adds one, a reset that is carried out starts again from 0, and
    nothing else changes it. *)
Definition tally (ev : Event) (st : GameState) (k : Z) : Z :=
  match ev with
  | Tick => if completesWord st then k + 1 else k
  | ResetClick => if gameOver st then 0 else k
  | _ => k
  end.

(** [Completed st k]: some run from the mount reaches [st], and [k] words
    have been completed in it since the last reset. *)
Inductive Completed : GameState -> Z -> Prop :=
| completed_mount (saved : option Z) (ds rest : list Q) (st : GameState) :
    mount saved ds = Returned st rest -> Completed st 0
| completed_dispatch (st st' : GameState) (ev : Event) (ds rest : list Q) (k : Z) :
    Completed st k ->
    dispatch ev st ds = Returned st' rest -> Completed st' (tally ev st k).

(** The number of words completed once the run [script] has been played
    from [st], where the number was [k]. *)
Fixpoint tallyPlay (script : list (Event * list Q)) (st : GameState) (k : Z) : Z :=
  match script with
  | [] => k
  | (ev, ds) :: script' =>
      match dispatch ev st ds with
      | Returned st' _ => tallyPlay script' st' (tally ev st k)
      | _ => k
      end
  end.

(** * Basic facts *)

Lemma sameCell_true (a b : Cell) : sameCell a b = true <-> a = b.
Proof.
  unfold sameCell. destruct a as [ax ay], b as [bx b_y]. simpl.
  rewrite andb_true_iff, !Z.eqb_eq. split.
  - intros [-> ->]. reflexivity.
  - intros E. inversion E. auto.
Qed.

Lemma sameCell_false (a b : Cell) : sameCell a b = false <-> a <> b.
Proof.
  rewrite <- sameCell_true. destruct (sameCell a b); split; congruence.
Qed.

Lemma sameCell_refl (a : Cell) : sameCell a a = true.
Proof. apply sameCell_true. reflexivity. Qed.

Lemma isOccupied_true (occupied : list Cell) (c : Cell) :
  isOccupied occupied c = true <-> In c occupied.
Proof.
  unfold isOccupied. rewrite existsb_exists. split.
  - intros [p [Hin Hs]]. apply sameCell_true in Hs. now subst.
  - intros Hin. exists c. split; [assumption | apply sameCell_refl].
Qed.

Lemma isOccupied_false (occupied : list Cell) (c : Cell) :
  isOccupied occupied c = false <-> ~ In c occupied.
Proof.
  rewrite <- isOccupied_true. destruct (isOccupied occupied c); split; congruence.
Qed.

Lemma isOccupied_app (o1 o2 : list Cell) (c : Cell) :
  isOccupied (o1 ++ o2) c = isOccupied o1 c || isOccupied o2 c.
Proof. unfold isOccupied. apply existsb_app. Qed.

Lemma floorTimes_range (q : Q) (n : Z) :
  unitDraw q = true -> 0 < n -> 0 <= floorTimes q n < n.
Proof.
  unfold unitDraw, floorTimes. intros H Hn.
  apply andb_true_iff in H. destruct H as [H0 H1].
  apply Qle_bool_iff in H0.
  apply negb_true_iff in H1.
  assert (Hlt : (q < 1)%Q).
  { apply Qnot_le_lt. intro Hle. apply Qle_bool_iff in Hle. congruence. }
  assert (Hn' : (inject_Z 0 < inject_Z n)%Q) by (rewrite <- Zlt_Qlt; exact Hn).
  split.
  - rewrite <- (Qfloor_Z 0).
    apply Qfloor_resp_le. apply Qmult_le_0_compat; [assumption | now apply Qlt_le_weak].
  - assert (Hm : (q * inject_Z n < inject_Z n)%Q).
    { apply Qlt_le_trans with (1 * inject_Z n)%Q.
      - apply Qmult_lt_compat_r; assumption.
      - rewrite Qmult_1_l. apply Qle_refl. }
    pose proof (Qfloor_le (q * inject_Z n)) as Hf.
    rewrite Zlt_Qlt. eapply Qle_lt_trans; eassumption.
Qed.


(** * The letter placement generator *)

(** Induction over a supply of draws two at a time, as the loop reads it. *)
Lemma draws_pair_ind (P : list Q -> Prop) :
  P [] -> (forall a, P [a]) -> (forall a b l, P l -> P (a :: b :: l)) ->
  forall l, P l.
Proof.
  intros Hnil Hone Hstep l.
  assert (H : P l /\ forall a, P (a :: l)).
  { induction l as [|b l [IH1 IH2]].
    - split; [exact Hnil | exact Hone].
    - split; [apply IH2 | intro a; apply Hstep, IH1]. }
  exact (proj1 H).
Qed.

Lemma candidates_inGrid (ds : list Q) :
  unitDraws ds = true -> Forall inGrid (candidates ds).
Proof.
  induction ds as [| a | a b l IH] using draws_pair_ind; simpl; intros H.
  - constructor.
  - constructor.
  - apply andb_true_iff in H. destruct H as [Ha H].
    apply andb_true_iff in H. destruct H as [Hb H].
    constructor.
    + split; simpl; apply floorTimes_range; (assumption || reflexivity).
    + apply IH, H.
Qed.

(** What the sampling loop returns: the first candidate that is free; the
    candidates before it are all occupied, the ones after it are those of
    the draws left over.  It is still in the loop only if no candidate is
    free, and it never throws. *)
Lemma sampleFree_spec (occupied : list Cell) (ds : list Q) :
  match sampleFree occupied ds with
  | Returned p rest =>
      isOccupied occupied p = false /\
      exists pre, candidates ds = pre ++ p :: candidates rest /\
                  filter (freeIn occupied) pre = []
  | Spinning => filter (freeIn occupied) (candidates ds) = []
  | Thrown => False
  end.
Proof.
  induction ds as [| a | a b l IH] using draws_pair_ind; simpl; try reflexivity.
  set (c := {| x := floorTimes a GRID_SIZE; y := floorTimes b GRID_SIZE |}).
  unfold freeIn at 2. destruct (isOccupied occupied c) eqn:Hc; simpl.
  - destruct (sampleFree occupied l) as [p rest| |]; try assumption.
    destruct IH as [Hp [pre [Hpre Hocc]]]. split; [assumption|].
    exists (c :: pre). split.
    + simpl. now rewrite Hpre.
    + simpl. unfold freeIn at 1. now rewrite Hc.
  - split; [assumption|]. exists []. split; reflexivity.
Qed.

Lemma freeIn_snoc (occupied : list Cell) (p c : Cell) :
  freeIn (occupied ++ [p]) c = freeIn occupied c && negb (sameCell p c).
Proof.
  unfold freeIn. rewrite isOccupied_app. unfold isOccupied at 2. simpl.
  rewrite orb_false_r. now rewrite negb_orb.
Qed.

(** Taking the sampled cell costs at most one fresh candidate. *)
Lemma freshCandidates_after_sample (occupied : list Cell) (ds rest : list Q) (p : Cell) :
  sampleFree occupied ds = Returned p rest ->
  (List.length (freshCandidates occupied ds)
     <= S (List.length (freshCandidates (occupied ++ [p]) rest)))%nat.
Proof.
  intros Hs. pose proof (sampleFree_spec occupied ds) as H. rewrite Hs in H.
  destruct H as [Hp [pre [Hpre Hocc]]].
  unfold freshCandidates. rewrite Hpre, filter_app, Hocc. simpl.
  unfold freeIn at 1. rewrite Hp. simpl negb. cbv iota.
  change (S (List.length ?l)) with (List.length (p :: l)).
  apply NoDup_incl_length; [apply NoDup_nodup|].
  intros c Hc. apply nodup_In in Hc. destruct Hc as [<- | Hc]; [now left|].
  destruct (Cell_eq_dec p c) as [<- | Hne]; [now left|]. right.
  apply nodup_In. apply filter_In in Hc. destruct Hc as [Hin Hfree].
  apply filter_In. split; [assumption|].
  rewrite freeIn_snoc, Hfree. simpl. apply negb_true_iff. now apply sameCell_false.
Qed.

(** With enough fresh candidates in the supply, the generator returns. *)
Lemma placeLetters_returns (letters : string) :
  forall (i : nat) (foods : list Food) (occupied : list Cell) (ds : list Q),
  (String.length letters <= List.length (freshCandidates occupied ds))%nat ->
  exists fs rest, placeLetters i letters foods occupied ds = Returned fs rest.
Proof.
  induction letters as [|c letters IH]; intros i foods occupied ds Hlen; simpl.
  - exists foods, ds. reflexivity.
  - unfold bind. pose proof (sampleFree_spec occupied ds) as Hspec.
    destruct (sampleFree occupied ds) as [p rest| |] eqn:Hs.
    + apply IH. apply freshCandidates_after_sample in Hs. simpl in Hlen. lia.
    + unfold freshCandidates in Hlen. rewrite Hspec in Hlen. simpl in Hlen. lia.
    + contradiction.
Qed.

(** What the generator returns, whenever it returns. *)
Lemma placeLetters_spec (letters : string) :
  forall (i : nat) (foods : list Food) (occupied : list Cell) (ds rest : list Q)
         (fs : list Food),
  placeLetters i letters foods occupied ds = Returned fs rest ->
  exists added,
    fs = foods ++ added /\
    List.length added = String.length letters /\
    NoDup (map foodCell added) /\
    (forall f, In f added -> ~ In (foodCell f) occupied) /\
    (forall f, In f added -> In (foodCell f) (candidates ds)) /\
    (forall k f, nth_error added k = Some f ->
       id f = foodId (i + k) (fx f) (fy f) /\
       String.get k letters = Some (letter f)).
Proof.
  induction letters as [|c letters IH]; intros i foods occupied ds rest fs; simpl.
  - unfold ret. intros E. inversion E; subst. exists []. rewrite app_nil_r.
    split; [reflexivity|]. split; [reflexivity|]. split; [constructor|].
    split; [intros f []|]. split; [intros f []|].
    intros [|k] f Hk; discriminate.
  - unfold bind. pose proof (sampleFree_spec occupied ds) as Hspec.
    destruct (sampleFree occupied ds) as [p ds1| |] eqn:Hs; try discriminate.
    destruct Hspec as [Hp [pre [Hpre _]]].
    intros Hrec. apply IH in Hrec.
    destruct Hrec as [added [Hfs [Hlen [Hnd [Hfree [Hcand Hidx]]]]]].
    set (f0 := {| id := foodId i (x p) (y p); fx := x p; fy := y p; letter := c |}) in *.
    assert (Hf0 : foodCell f0 = p) by (destruct p; reflexivity).
    exists (f0 :: added). split; [|split; [|split; [|split; [|split]]]].
    + rewrite Hfs, <- app_assoc. reflexivity.
    + simpl. now rewrite Hlen.
    + simpl. constructor; [|assumption].
      rewrite Hf0. intros Hin. apply in_map_iff in Hin.
      destruct Hin as [f [Hfc Hf]]. apply (Hfree f Hf).
      rewrite Hfc. apply in_or_app. right. now left.
    + intros f [E | Hf].
      * rewrite <- E, Hf0. now apply isOccupied_false.
      * intros Hin. apply (Hfree f Hf). apply in_or_app. now left.
    + intros f [E | Hf]; rewrite Hpre; apply in_or_app; right.
      * rewrite <- E, Hf0. now left.
      * right. now apply Hcand.
    + intros [|k] f Hk; simpl in Hk.
      * inversion Hk. split; [|reflexivity]. rewrite Nat.add_0_r. reflexivity.
      * apply Hidx in Hk. destruct Hk as [Hid Hget]. split; [|exact Hget].
        rewrite Hid. f_equal. lia.
Qed.


(** * The tick: function and relation agree *)

Lemma guard_running (st : GameState) :
  negb (hasStarted st) || gameOver st || isPaused st = negb (running st).
Proof.
  unfold running. destruct (hasStarted st), (gameOver st), (isPaused st); reflexivity.
Qed.

Lemma takeDirection_fst (st : GameState) :
  fst (takeDirection st) = nextDirection st.
Proof. unfold takeDirection, nextDirection. destruct (directionQueue st); reflexivity. Qed.

Lemma takeDirection_only_direction (st : GameState) :
  onlyDirectionCommitted st (snd (takeDirection st)).
Proof.
  unfold onlyDirectionCommitted, takeDirection, nextDirection.
  destruct (directionQueue st) eqn:Hq; simpl; rewrite ?Hq; repeat split; reflexivity.
Qed.

Lemma takeDirection_gameOver (st : GameState) :
  gameOver (snd (takeDirection st)) = gameOver st.
Proof. unfold takeDirection. destruct (directionQueue st); reflexivity. Qed.

Lemma step_Ticks (st st' : GameState) (ds rest : list Q) :
  step st ds = Returned st' rest -> Ticks st ds st' rest.
Proof.
  unfold step. rewrite guard_running.
  destruct (running st) eqn:Hr; cbn [negb].
  2:{ unfold ret. intros E. injection E as <- <-. now apply tick_idle. }
  destruct (takeDirection st) as [d st1] eqn:Ht.
  assert (Hd : d = nextDirection st) by (rewrite <- takeDirection_fst, Ht; reflexivity).
  assert (Hst1 : st1 = snd (takeDirection st)) by (rewrite Ht; reflexivity).
  clear Ht. subst d st1.
  destruct (snake st) as [|head body] eqn:Hs; [discriminate|].
  set (newHead := advance head (nextDirection st)).
  destruct (hitsWall newHead) eqn:Hw.
  { unfold ret. intros E. injection E as <- <-.
    eapply tick_collision; eauto. fold newHead. now rewrite Hw. }
  destruct (hitsSelf (head :: body) newHead) eqn:Hself.
  { unfold ret. intros E. injection E as <- <-.
    eapply tick_collision; eauto. fold newHead. rewrite Hs, Hw, Hself. reflexivity. }
  assert (Hfree : hitsWall newHead || hitsSelf (snake st) newHead = false)
    by (rewrite Hs, Hw, Hself; reflexivity).
  destruct (findIndex (onFood newHead) (foods st)) as [i|] eqn:Hfi.
  2:{ unfold ret. intros E. injection E as <- <-.
      change (Ticks st ds (setSnake (removelast (newHead :: head :: body))
                              (snd (takeDirection st))) ds).
      rewrite <- Hs. eapply tick_move; eauto. }
  destruct (nth_error (foods st) i) as [f|] eqn:Hnth; [|discriminate].
  destruct (letterMatches f (word st) (wordIndex st)) eqn:Hlm.
  2:{ unfold ret. intros E. injection E as <- <-. eapply tick_wrong_letter; eauto. }
  destruct (String.length (word st) <=? S (wordIndex st))%nat eqn:Hlen.
  - apply Nat.leb_le in Hlen.
    unfold bind, randomWord, bind, random, ret.
    destruct ds as [|q ds]; [discriminate|].
    destruct (wordAt (floorTimes q (Z.of_nat (List.length WORDS)))) as [nextWord|] eqn:Hw0;
      [|discriminate].
    destruct (generateFoodsForWord nextWord (newHead :: head :: body) ds)
      as [newFoods rest'| |] eqn:Hgen; try discriminate.
    intros E. injection E as <- <-. rewrite <- Hs in *.
    eapply tick_complete; eauto.
  - apply Nat.leb_gt in Hlen.
    unfold ret. intros E. injection E as <- <-. rewrite <- Hs.
    eapply tick_eat; eauto.
Qed.

Lemma Ticks_step (st st' : GameState) (ds rest : list Q) :
  Ticks st ds st' rest -> step st ds = Returned st' rest.
Proof.
  intros H. unfold step. rewrite guard_running.
  destruct (takeDirection st) as [d st1] eqn:Ht.
  assert (Hd : d = nextDirection st) by (rewrite <- takeDirection_fst, Ht; reflexivity).
  assert (Hst1 : st1 = snd (takeDirection st)) by (rewrite Ht; reflexivity).
  clear Ht. subst d st1.
  destruct H as
    [ ds Hr
    | ds head body Hr Hs Hc
    | ds head body Hr Hs Hc Hfi
    | ds head body i f Hr Hs Hc Hfi Hnth Hlm
    | ds head body i f Hr Hs Hc Hfi Hnth Hlm Hlen
    | q ds rest head body i f nextWord newFoods Hr Hs Hc Hfi Hnth Hlm Hlen Hw0 Hgen ];
    rewrite Hr; simpl; try reflexivity; rewrite Hs; rewrite Hs in Hc.
  - apply orb_true_iff in Hc. destruct Hc as [-> | Hc]; [reflexivity|].
    rewrite Hc. now destruct (hitsWall _).
  - apply orb_false_iff in Hc. destruct Hc as [-> ->]. rewrite Hfi. now rewrite <- Hs.
  - apply orb_false_iff in Hc. destruct Hc as [-> ->]. now rewrite Hfi, Hnth, Hlm.
  - apply orb_false_iff in Hc. destruct Hc as [-> ->]. rewrite Hfi, Hnth, Hlm.
    apply Nat.leb_gt in Hlen. rewrite Hlen. now rewrite <- Hs.
  - apply orb_false_iff in Hc. destruct Hc as [-> ->]. rewrite Hfi, Hnth, Hlm.
    apply Nat.leb_le in Hlen. rewrite Hlen.
    unfold bind, randomWord, bind, random, ret. rewrite Hw0.
    rewrite <- Hs. rewrite Hgen. reflexivity.
Qed.

(** * Claims about the generator *)

(** C2.  For every word [W], occupied cells and supply of draws: whenever
    [generateFoodsForWord W occupied] returns, it returns exactly [length W]
    food items, the [i]-th carrying the [i]-th letter of [W] and the
    identity built from [i] and its position, at positions that are pairwise
    distinct, on the board and not occupied; and it does return as soon as
    the candidates of the supply hold [length W] distinct cells that are not
    occupied. *)
Theorem generateFoodsForWord_places_every_letter
    (W : string) (occupied : list Cell) (ds : list Q) :
  unitDraws ds = true ->
  (forall foods rest,
     generateFoodsForWord W occupied ds = Returned foods rest ->
     List.length foods = String.length W /\
     NoDup (map foodCell foods) /\
     (forall f, In f foods -> ~ In (foodCell f) occupied /\ inGrid (foodCell f)) /\
     (forall i f, nth_error foods i = Some f ->
        String.get i W = Some (letter f) /\ id f = foodId i (fx f) (fy f)))
  /\
  ((String.length W <= List.length (freshCandidates occupied ds))%nat ->
   exists foods rest, generateFoodsForWord W occupied ds = Returned foods rest).
Proof.
  intros Hunit. split.
  - intros foods rest Hgen. unfold generateFoodsForWord in Hgen.
    apply placeLetters_spec in Hgen.
    destruct Hgen as [added [Hfs [Hlen [Hnd [Hfree [Hcand Hidx]]]]]].
    simpl in Hfs. subst added.
    split; [exact Hlen|]. split; [exact Hnd|]. split.
    + intros f Hf. split; [now apply Hfree|].
      pose proof (candidates_inGrid ds Hunit) as Hall.
      rewrite Forall_forall in Hall. apply Hall, Hcand, Hf.
    + intros i f Hi. apply Hidx in Hi. destruct Hi as [Hid Hget]. now split.
  - intros Hlen. now apply placeLetters_returns.
Qed.

Lemma generateFoodsForWord_places_every_letter_witness :
  exists foods rest,
    generateFoodsForWord "WEB" INITIAL_SNAKE drawsWEB = Returned foods rest /\
    List.length foods = 3%nat /\
    NoDup (map foodCell foods).
Proof.
  destruct (generateFoodsForWord_places_every_letter "WEB" INITIAL_SNAKE drawsWEB
              eq_refl) as [Hspec Hret].
  destruct Hret as [foods [rest Hgen]].
  - vm_compute. lia.
  - exists foods, rest. destruct (Hspec foods rest Hgen) as [Hlen [Hnd _]].
    split; [exact Hgen|]. split; [exact Hlen | exact Hnd].
Defined.

Lemma allCells_complete (c : Cell) : inGrid c -> In c allCells.
Proof.
  intros [[Hx0 Hx1] [Hy0 Hy1]]. unfold allCells.
  apply in_flat_map. exists (Z.to_nat (x c)). split.
  - apply in_seq. unfold GRID_SIZE in *. lia.
  - apply in_map_iff. exists (Z.to_nat (y c)). split.
    + destruct c as [cx cy]. simpl in *. f_equal; lia.
    + apply in_seq. unfold GRID_SIZE in *. lia.
Qed.

Lemma coversGrid_occupied (occupied : list Cell) (c : Cell) :
  coversGrid occupied = true -> inGrid c -> isOccupied occupied c = true.
Proof.
  unfold coversGrid. rewrite forallb_forall. intros H Hc.
  apply H, allCells_complete, Hc.
Qed.

(** On a full board the sampling loop is still running after any supply of
    draws. *)
Lemma sampleFree_full_board (occupied : list Cell) (ds : list Q) :
  coversGrid occupied = true -> unitDraws ds = true ->
  sampleFree occupied ds = Spinning.
Proof.
  intros Hfull.
  induction ds as [| a | a b l IH] using draws_pair_ind; simpl; intros H;
    try reflexivity.
  apply andb_true_iff in H. destruct H as [Ha H].
  apply andb_true_iff in H. destruct H as [Hb H].
  rewrite (coversGrid_occupied occupied _ Hfull).
  - apply IH, H.
  - split; simpl; apply floorTimes_range; (assumption || reflexivity).
Qed.

(** Samples that are rejected leave no trace: however many of them come
    first, the loop goes on to the draws after them. *)
Lemma sampleFree_skips_rejected (occupied : list Cell) (rejected ds : list Q) :
  Nat.even (List.length rejected) = true ->
  filter (freeIn occupied) (candidates rejected) = [] ->
  sampleFree occupied (rejected ++ ds) = sampleFree occupied ds.
Proof.
  induction rejected as [| a | a b l IH] using draws_pair_ind; intros Hev Hrej.
  - reflexivity.
  - discriminate Hev.
  - simpl in Hrej. unfold freeIn at 1 in Hrej.
    change (sampleFree occupied (a :: b :: (l ++ ds)) = sampleFree occupied ds).
    simpl sampleFree.
    destruct (isOccupied occupied
                {| x := floorTimes a GRID_SIZE; y := floorTimes b GRID_SIZE |});
      [|discriminate Hrej].
    apply IH; [exact Hev | exact Hrej].
Qed.

Lemma placeLetters_never_throws (letters : string) :
  forall i foods occupied ds, placeLetters i letters foods occupied ds <> Thrown.
Proof.
  induction letters as [|c letters IH]; intros i foods occupied ds; simpl.
  - discriminate.
  - unfold bind. pose proof (sampleFree_spec occupied ds) as Hspec.
    destruct (sampleFree occupied ds) as [p rest| |]; [apply IH | discriminate | contradiction].
Qed.

(** A generator that returns has found a free cell of its own for every
    letter. *)
Lemma generateFoodsForWord_needs_room
    (W : string) (occupied : list Cell) (ds rest : list Q) (fs : list Food) :
  generateFoodsForWord W occupied ds = Returned fs rest ->
  (String.length W <= List.length (freshCandidates occupied ds))%nat.
Proof.
  intros Hgen. unfold generateFoodsForWord in Hgen.
  apply placeLetters_spec in Hgen.
  destruct Hgen as [added [_ [Hlen [Hnd [Hfree [Hcand _]]]]]].
  rewrite <- Hlen, <- (length_map foodCell).
  apply NoDup_incl_length; [exact Hnd|].
  intros c Hc. apply in_map_iff in Hc. destruct Hc as [f [<- Hf]].
  apply nodup_In, filter_In. split; [now apply Hcand|].
  unfold freeIn. apply negb_true_iff, isOccupied_false. now apply Hfree.
Qed.

(** With fewer fresh candidates than letters the generator is still
    sampling when the supply ends. *)
Lemma generateFoodsForWord_starved
    (W : string) (occupied : list Cell) (ds : list Q) :
  (List.length (freshCandidates occupied ds) < String.length W)%nat ->
  generateFoodsForWord W occupied ds = Spinning.
Proof.
  intros Hlt. destruct (generateFoodsForWord W occupied ds) as [fs rest| |] eqn:Hgen.
  - apply generateFoodsForWord_needs_room in Hgen. lia.
  - reflexivity.
  - exfalso. revert Hgen. apply placeLetters_never_throws.
Qed.

(** C9, as the code has it.  The generator has no bound on its retries and
    no failure outcome.  For a word with a letter: when the occupied cells
    cover the board it is still inside its sampling loop after any finite
    supply of draws; any number of rejected samples is passed over and the
    run goes on as if they had not been drawn; and it never throws. *)
Theorem generateFoodsForWord_never_leaves_full_board
    (W : string) (occupied : list Cell) (ds : list Q) :
  W <> EmptyString ->
  unitDraws ds = true ->
  (coversGrid occupied = true -> generateFoodsForWord W occupied ds = Spinning) /\
  (forall rejected,
     Nat.even (List.length rejected) = true ->
     filter (freeIn occupied) (candidates rejected) = [] ->
     generateFoodsForWord W occupied (rejected ++ ds)
       = generateFoodsForWord W occupied ds) /\
  generateFoodsForWord W occupied ds <> Thrown.
Proof.
  intros HW Hunit. destruct W as [|c W]; [congruence|].
  unfold generateFoodsForWord. split; [|split].
  - intros Hfull. simpl. unfold bind. now rewrite sampleFree_full_board.
  - intros rejected Hev Hrej. simpl. unfold bind.
    now rewrite sampleFree_skips_rejected.
  - apply placeLetters_never_throws.
Qed.

Lemma generateFoodsForWord_never_leaves_full_board_witness :
  generateFoodsForWord "A" allCells drawsWEB = Spinning /\
  generateFoodsForWord "A" INITIAL_SNAKE ([1#2; 1#2; 1#2; 11#20]%Q ++ drawsWEB)
    = generateFoodsForWord "A" INITIAL_SNAKE drawsWEB.
Proof.
  split.
  - apply generateFoodsForWord_never_leaves_full_board.
    + discriminate.
    + vm_compute. reflexivity.
    + vm_compute. reflexivity.
  - apply generateFoodsForWord_never_leaves_full_board.
    + discriminate.
    + vm_compute. reflexivity.
    + reflexivity.
    + reflexivity.
Defined.

(** C9 fails as stated: with every cell occupied the generator does not end
    in a failure; after a thousand rejected samples, and after any number of
    them, it is still sampling. *)
Lemma generateFoodsForWord_no_retry_cap :
  coversGrid allCells = true /\
  generateFoodsForWord "A" allCells (repeat 0%Q 2000) = Spinning /\
  (forall ds, unitDraws ds = true ->
     generateFoodsForWord "A" allCells ds <> Thrown /\
     forall foods rest, generateFoodsForWord "A" allCells ds <> Returned foods rest).
Proof.
  assert (Hfull : coversGrid allCells = true) by (vm_compute; reflexivity).
  split; [exact Hfull|]. split.
  - vm_compute. reflexivity.
  - intros ds Hunit. unfold generateFoodsForWord. simpl. unfold bind.
    rewrite (sampleFree_full_board allCells ds Hfull Hunit).
    split; [discriminate | intros; discriminate].
Qed.

(** * Claims about one tick *)

Lemma hitsWall_false (c : Cell) : hitsWall c = false <-> inGrid c.
Proof.
  unfold hitsWall, inGrid, GRID_SIZE. rewrite !orb_false_iff.
  rewrite !Z.ltb_ge, !Z.geb_leb, !Z.leb_gt. lia.
Qed.

Lemma hitsSelf_true (snake : list Cell) (c : Cell) :
  hitsSelf snake c = true <-> In c snake.
Proof. apply isOccupied_true. Qed.

Lemma no_collision (snake : list Cell) (c : Cell) :
  inGrid c -> ~ In c snake -> hitsWall c || hitsSelf snake c = false.
Proof.
  intros Hg Hn. apply orb_false_iff. split.
  - now apply hitsWall_false.
  - destruct (hitsSelf snake c) eqn:E; [|reflexivity].
    apply hitsSelf_true in E. contradiction.
Qed.

Lemma collision (snake : list Cell) (c : Cell) :
  ~ inGrid c \/ In c snake -> hitsWall c || hitsSelf snake c = true.
Proof.
  intros [Hg | Hin]; apply orb_true_iff.
  - left. destruct (hitsWall c) eqn:E; [reflexivity|].
    apply hitsWall_false in E. contradiction.
  - right. now apply hitsSelf_true.
Qed.

(** [findIndex] and the element at the index it gives, against [find]. *)
Lemma findIndex_find {A : Type} (p : A -> bool) (arr : list A) :
  match find p arr with
  | Some a => exists i, findIndex p arr = Some i /\ nth_error arr i = Some a
  | None => findIndex p arr = None
  end.
Proof.
  induction arr as [|a arr IH]; simpl; [reflexivity|].
  destruct (p a).
  - exists 0%nat. split; reflexivity.
  - destruct (find p arr) as [b|].
    + destruct IH as [i [Hi Hn]]. exists (S i). rewrite Hi. split; [reflexivity | exact Hn].
    + now rewrite IH.
Qed.

Lemma letterMatches_true (f : Food) (w : string) (i : nat) :
  letterMatches f w i = true <-> String.get i w = Some (letter f).
Proof.
  unfold letterMatches. destruct (String.get i w) as [c|].
  - rewrite Ascii.eqb_eq. split; [intros ->; reflexivity | intros E; now inversion E].
  - split; discriminate.
Qed.

Lemma length_removelast_cons {A : Type} (a : A) (l : list A) :
  List.length (removelast (a :: l)) = List.length l.
Proof.
  revert a. induction l as [|b l IH]; intros a; [reflexivity|].
  change (removelast (a :: b :: l)) with (a :: removelast (b :: l)).
  change (S (List.length (removelast (b :: l))) = S (List.length l)).
  f_equal. apply IH.
Qed.

(** The tick that eats the last letter of the word: what it does once the
    word is drawn depends on the generator alone. *)
Lemma step_completing (st : GameState) (head : Cell) (body : list Cell)
    (f : Food) (q : Q) (ds : list Q) (w : string) :
  running st = true ->
  snake st = head :: body ->
  inGrid (advance head (nextDirection st)) ->
  ~ In (advance head (nextDirection st)) (snake st) ->
  find (onFood (advance head (nextDirection st))) (foods st) = Some f ->
  String.get (wordIndex st) (word st) = Some (letter f) ->
  S (wordIndex st) = String.length (word st) ->
  wordAt (floorTimes q (Z.of_nat (List.length WORDS))) = Some w ->
  generateFoodsForWord w (advance head (nextDirection st) :: snake st) ds = Spinning ->
  step st (q :: ds) = Spinning.
Proof.
  intros Hr Hs Hg Hn Hfind Hletter Hlast Hw Hgen.
  pose proof (findIndex_find (onFood (advance head (nextDirection st))) (foods st)) as Hfi.
  rewrite Hfind in Hfi. destruct Hfi as [i [Hi Hnth]].
  pose proof (no_collision _ _ Hg Hn) as Hc. rewrite Hs in Hc.
  apply orb_false_iff in Hc. destruct Hc as [Hwall Hself].
  apply letterMatches_true in Hletter.
  unfold step. rewrite guard_running, Hr. cbn [negb].
  destruct (takeDirection st) as [d st1] eqn:Ht.
  assert (Hd : d = nextDirection st) by (rewrite <- takeDirection_fst, Ht; reflexivity).
  subst d. rewrite Hs, Hwall, Hself, Hi, Hnth, Hletter.
  assert (Hlen : (String.length (word st) <=? S (wordIndex st))%nat = true)
    by (apply Nat.leb_le; lia).
  rewrite Hlen. unfold bind, randomWord, bind, random, ret. rewrite Hw.
  rewrite <- Hs. now rewrite Hgen.
Qed.

Section RunningTick.

Variable st : GameState.
Variables (head : Cell) (body : list Cell).
Hypothesis Hrunning : running st = true.
Hypothesis Hsnake : snake st = head :: body.

(** [head + committed direction] *)
Let newHead : Cell := advance head (nextDirection st).

(** C3.  While Running, a new head outside the board or on a cell of the
    snake ends the game and changes nothing else: snake, score, foods, word
    and word index (and every other field) are as before, apart from the
    direction committed from the queue in the first step of the tick. *)
Theorem step_collision_only_ends_game (ds : list Q) :
  ~ inGrid newHead \/ In newHead (snake st) ->
  exists st',
    step st ds = Returned st' ds /\
    gameOver st' = true /\
    onlyDirectionCommitted st st'.
Proof.
  intros Hc. exists (setGameOver true (snd (takeDirection st))). split; [|split].
  - apply Ticks_step. eapply tick_collision; eauto. now apply collision.
  - reflexivity.
  - apply (takeDirection_only_direction st).
Qed.

(** C7, as the code has it.  While Running, when the new head lands on a
    food item whose letter is not [word[wordIndex]], the game ends and the
    tick returns before the new snake is committed: the snake is exactly the
    one before the tick, the new head is not added and the length does not
    change; only the committed direction and its queue moved. *)
Theorem step_wrong_letter_leaves_snake (ds : list Q) (f : Food) :
  inGrid newHead ->
  ~ In newHead (snake st) ->
  find (onFood newHead) (foods st) = Some f ->
  String.get (wordIndex st) (word st) <> Some (letter f) ->
  exists st',
    step st ds = Returned st' ds /\
    gameOver st' = true /\
    snake st' = snake st /\
    onlyDirectionCommitted st st'.
Proof.
  intros Hg Hn Hfind Hwrong.
  pose proof (findIndex_find (onFood newHead) (foods st)) as Hfi.
  rewrite Hfind in Hfi. destruct Hfi as [i [Hi Hnth]].
  exists (setGameOver true (snd (takeDirection st))). split; [|split; [|split]].
  - apply Ticks_step. eapply tick_wrong_letter; eauto.
    + now apply no_collision.
    + destruct (letterMatches f (word st) (wordIndex st)) eqn:E; [|reflexivity].
      apply letterMatches_true in E. contradiction.
  - reflexivity.
  - apply (takeDirection_only_direction st).
  - apply (takeDirection_only_direction st).
Qed.

(** C1, as the code has it.  While Running, when the new head lands on a
    food item whose letter is [word[wordIndex]] and [wordIndex + 1] is the
    length of the word, the tick draws a word of the catalog and calls the
    generator for it against the grown snake.  When the draws hold as many
    distinct free cells as the new word has letters, the tick returns with
    10 + 50 added to the score, the new word, word index 0, the foods the
    generator returned and the grown snake, and the delay lowered by 5 but
    not below 60.  When they hold fewer, the tick never returns.  The delay
    of a freshly mounted game is 150. *)
Theorem step_word_completed (q : Q) (ds : list Q) (f : Food) :
  inGrid newHead ->
  ~ In newHead (snake st) ->
  find (onFood newHead) (foods st) = Some f ->
  String.get (wordIndex st) (word st) = Some (letter f) ->
  S (wordIndex st) = String.length (word st) ->
  unitDraw q = true ->
  (exists nextWord,
     wordAt (floorTimes q (Z.of_nat (List.length WORDS))) = Some nextWord /\
     In nextWord WORDS /\
     ((String.length nextWord
         <= List.length (freshCandidates (newHead :: snake st) ds))%nat ->
      exists newFoods rest st',
        generateFoodsForWord nextWord (newHead :: snake st) ds
          = Returned newFoods rest /\
        step st (q :: ds) = Returned st' rest /\
        score st' = score st + 10 + 50 /\
        word st' = nextWord /\
        wordIndex st' = 0%nat /\
        foods st' = newFoods /\
        snake st' = newHead :: snake st /\
        speed st' = Z.max 60 (speed st - 5) /\
        gameOver st' = false) /\
     ((List.length (freshCandidates (newHead :: snake st) ds)
         < String.length nextWord)%nat ->
      step st (q :: ds) = Spinning))
  /\
  (forall saved ds0 st0 rest0,
     mount saved ds0 = Returned st0 rest0 -> speed st0 = 150).
Proof.
  intros Hg Hn Hfind Hletter Hlast Hq. split.
  - pose proof (floorTimes_range q (Z.of_nat (List.length WORDS)) Hq eq_refl) as Hidx.
    destruct (wordAt (floorTimes q (Z.of_nat (List.length WORDS)))) as [nextWord|] eqn:Hw.
    2:{ exfalso. unfold wordAt in Hw.
        destruct (floorTimes q (Z.of_nat (List.length WORDS)) <? 0) eqn:Hneg;
          [apply Z.ltb_lt in Hneg; lia|].
        apply nth_error_None in Hw. lia. }
    exists nextWord. split; [reflexivity|]. split.
    { unfold wordAt in Hw.
      destruct (floorTimes q (Z.of_nat (List.length WORDS)) <? 0); [discriminate|].
      eapply nth_error_In, Hw. }
    split.
    2:{ intros Hfew. eapply step_completing; eauto.
        now apply generateFoodsForWord_starved. }
    intros Hfresh.
    destruct (placeLetters_returns nextWord 0 [] (newHead :: snake st) ds Hfresh)
      as [newFoods [rest Hgen]].
    pose proof (findIndex_find (onFood newHead) (foods st)) as Hfi.
    rewrite Hfind in Hfi. destruct Hfi as [i [Hi Hnth]].
    pose proof (takeDirection_only_direction st) as Hdir.
    destruct Hdir as [_ [_ [_ [_ [_ [_ [_ [Hscore [_ [_ [Hspeed _]]]]]]]]]]].
    pose proof (takeDirection_gameOver st) as Hgo.
    exists newFoods, rest. eexists. split; [exact Hgen|]. split.
    + apply Ticks_step. eapply tick_complete; eauto.
      * now apply no_collision.
      * now apply letterMatches_true.
      * lia.
    + simpl. rewrite Hscore, Hspeed, Hgo. repeat split.
      unfold running in Hrunning. destruct (hasStarted st), (gameOver st); simpl in *;
        congruence.
  - intros saved ds0 st0 rest0. unfold mount.
    destruct (wordAt 0); [|discriminate]. unfold bind.
    destruct (generateFoodsForWord s INITIAL_SNAKE ds0); try discriminate.
    unfold ret, highScoreEffect. simpl.
    destruct (0 >? _); intros E; injection E as <- _; reflexivity.
Qed.

End RunningTick.

Lemma step_collision_only_ends_game_witness :
  exists st',
    step atLeftWall [] = Returned st' [] /\
    gameOver st' = true /\
    onlyDirectionCommitted atLeftWall st'.
Proof.
  apply (step_collision_only_ends_game atLeftWall {| x := 0; y := 5 |}
           [ {| x := 1; y := 5 |}; {| x := 2; y := 5 |} ] eq_refl eq_refl []).
  left. unfold inGrid. simpl. lia.
Defined.

Lemma step_wrong_letter_leaves_snake_witness :
  exists st',
    step (scenario "Z") [] = Returned st' [] /\
    gameOver st' = true /\
    snake st' = snake (scenario "Z") /\
    onlyDirectionCommitted (scenario "Z") st'.
Proof.
  apply (step_wrong_letter_leaves_snake (scenario "Z") {| x := 10; y := 10 |}
           [ {| x := 10; y := 11 |}; {| x := 10; y := 12 |} ] eq_refl eq_refl []
           {| id := foodId 0 10 9; fx := 10; fy := 9; letter := "Z" |}).
  - unfold inGrid, GRID_SIZE. simpl. lia.
  - simpl. intros [H | [H | [H | []]]]; discriminate H.
  - reflexivity.
  - simpl. discriminate.
Defined.

(** C7 fails as stated: in the specification's scenario with 'Z' above the
    head, the snake after the fatal tick is the three-cell snake from before
    it, not that snake with the new head (10,9) in front. *)
Lemma wrong_letter_head_not_prepended :
  step (scenario "Z") [] = Returned (setGameOver true (scenario "Z")) [] /\
  snake (setGameOver true (scenario "Z")) = INITIAL_SNAKE /\
  List.length (snake (setGameOver true (scenario "Z"))) = 3%nat /\
  snake (setGameOver true (scenario "Z"))
    <> {| x := 10; y := 9 |} :: snake (scenario "Z").
Proof.
  split; [reflexivity|]. split; [reflexivity|]. split; [reflexivity|].
  simpl. discriminate.
Qed.

Lemma step_word_completed_witness :
  exists st' rest,
    step lastLetter ((3#5)%Q :: drawsWEB) = Returned st' rest /\
    score st' = 70 /\
    word st' = "WEB"%string /\
    wordIndex st' = 0%nat /\
    speed st' = 145.
Proof.
  destruct (step_word_completed lastLetter {| x := 10; y := 10 |}
              [ {| x := 10; y := 11 |}; {| x := 10; y := 12 |} ] eq_refl eq_refl
              (3#5)%Q drawsWEB
              {| id := foodId 1 10 9; fx := 10; fy := 9; letter := "B" |})
    as [[nextWord [Hw [_ [H _]]]] _].
  - unfold inGrid, GRID_SIZE. simpl. lia.
  - simpl. intros [E | [E | [E | []]]]; discriminate E.
  - reflexivity.
  - reflexivity.
  - reflexivity.
  - reflexivity.
  - vm_compute in Hw. injection Hw as <-.
    destruct H as [newFoods [rest [st' [_ [Hstep [Hsc [Hwd [Hwi [_ [_ [Hsp _]]]]]]]]]]].
    + vm_compute. lia.
    + exists st', rest. split; [exact Hstep|].
      split; [exact Hsc|]. split; [exact Hwd|]. split; [exact Hwi | exact Hsp].
Defined.

(** C5.  A tick taken while Running that does not end in GameOver leaves
    the snake either at the length it had, when the new head is on no food
    item, or exactly one cell longer, when it is on one; the snake is the new
    head followed by the old snake, without its tail in the first case. *)
Theorem step_snake_length (st st' : GameState) (ds rest : list Q) :
  running st = true ->
  step st ds = Returned st' rest ->
  gameOver st' = false ->
  exists head body,
    snake st = head :: body /\
    ((find (onFood (advance head (nextDirection st))) (foods st) = None /\
      snake st' = removelast (advance head (nextDirection st) :: snake st) /\
      List.length (snake st') = List.length (snake st))
     \/
     (exists f,
        find (onFood (advance head (nextDirection st))) (foods st) = Some f /\
        snake st' = advance head (nextDirection st) :: snake st /\
        List.length (snake st') = S (List.length (snake st)))).
Proof.
  intros Hrun Hstep Hgo. apply step_Ticks in Hstep.
  destruct Hstep as
    [ ds Hr
    | ds head body Hr Hs Hc
    | ds head body Hr Hs Hc Hfi
    | ds head body i f Hr Hs Hc Hfi Hnth Hlm
    | ds head body i f Hr Hs Hc Hfi Hnth Hlm Hlen
    | q ds rest head body i f nextWord newFoods Hr Hs Hc Hfi Hnth Hlm Hlen Hw0 Hgen ];
    try congruence; try discriminate Hgo;
    exists head, body; (split; [exact Hs|]);
    pose proof (findIndex_find (onFood (advance head (nextDirection st))) (foods st)) as Hfind;
    destruct (find (onFood (advance head (nextDirection st))) (foods st)) as [g|] eqn:Hg.
  - destruct Hfind as [j [Hj _]]. congruence.
  - left. split; [reflexivity|]. split; [reflexivity|].
    simpl snake. apply length_removelast_cons.
  - right. exists g. repeat split.
  - congruence.
  - right. exists g. repeat split.
  - congruence.
Qed.

Lemma step_snake_length_witness :
  exists st',
    step (scenario "A") [] = Returned st' [] /\
    (List.length (snake st') = 3%nat \/ List.length (snake st') = 4%nat).
Proof.
  eexists. split; [reflexivity|].
  destruct (step_snake_length (scenario "A") _ [] [] eq_refl eq_refl eq_refl)
    as [head [body [_ [[_ [_ Hlen]] | [f [_ [_ Hlen]]]]]]].
  - left. exact Hlen.
  - right. exact Hlen.
Defined.

(** * The high-score effect *)

Lemma highScoreEffect_idempotent (st : GameState) :
  highScoreEffect (highScoreEffect st) = highScoreEffect st.
Proof.
  unfold highScoreEffect at 2 3. destruct (score st >? highScore st) eqn:E.
  - unfold highScoreEffect. simpl. rewrite Z.gtb_ltb, Z.ltb_irrefl. reflexivity.
  - unfold highScoreEffect. now rewrite E.
Qed.

(** The effect touches the high score and the store only. *)
Lemma afterRender_frame (prev st : GameState) :
  hasStarted (afterRender prev st) = hasStarted st /\
  snake (afterRender prev st) = snake st /\
  direction (afterRender prev st) = direction st /\
  directionQueue (afterRender prev st) = directionQueue st /\
  word (afterRender prev st) = word st /\
  wordIndex (afterRender prev st) = wordIndex st /\
  foods (afterRender prev st) = foods st /\
  score (afterRender prev st) = score st /\
  gameOver (afterRender prev st) = gameOver st /\
  isPaused (afterRender prev st) = isPaused st /\
  speed (afterRender prev st) = speed st.
Proof.
  unfold afterRender, highScoreEffect.
  destruct ((score st =? score prev) && (highScore st =? highScore prev));
    [|destruct (score st >? highScore st)]; repeat split; reflexivity.
Qed.

(** The store is written exactly when the score has passed the high score. *)
Lemma afterRender_store (prev st : GameState) :
  score prev <= highScore prev ->
  highScore st = highScore prev ->
  setItemCalls (afterRender prev st)
    = setItemCalls st ++ (if score st >? highScore prev then [score st] else []) /\
  highScore (afterRender prev st) = Z.max (score st) (highScore prev).
Proof.
  intros Hle Hhs. unfold afterRender, highScoreEffect. rewrite Hhs, Z.eqb_refl.
  rewrite andb_true_r.
  destruct (score st =? score prev) eqn:Hsc.
  - apply Z.eqb_eq in Hsc. rewrite Hsc.
    destruct (score prev >? highScore prev) eqn:Hgt.
    + rewrite Z.gtb_ltb in Hgt. apply Z.ltb_lt in Hgt. lia.
    + rewrite app_nil_r. split; [reflexivity | lia].
  - destruct (score st >? highScore prev) eqn:Hgt; simpl.
    + rewrite Z.gtb_ltb in Hgt. apply Z.ltb_lt in Hgt. split; [reflexivity | lia].
    + rewrite Z.gtb_ltb in Hgt. apply Z.ltb_ge in Hgt.
      rewrite app_nil_r. split; [reflexivity | lia].
Qed.

(** * Directions and the queue *)

Lemma unitDir_cases (d : Cell) :
  unitDir d = true ->
  d = {| x := 0; y := -1 |} \/ d = {| x := 0; y := 1 |} \/
  d = {| x := -1; y := 0 |} \/ d = {| x := 1; y := 0 |}.
Proof.
  unfold unitDir. simpl. rewrite !orb_true_iff, !sameCell_true.
  intuition discriminate.
Qed.

Lemma unitDir_not_opposite (d : Cell) : unitDir d = true -> d <> opposite d.
Proof.
  intros H. apply unitDir_cases in H.
  destruct H as [-> | [-> | [-> | ->]]]; discriminate.
Qed.

Lemma differs_true (a b : Cell) : differs a b = true <-> a <> b.
Proof.
  unfold differs. rewrite <- sameCell_false. unfold sameCell.
  destruct (x a =? x b), (y a =? y b); simpl; split; congruence.
Qed.

(** A direction the key switch lets through is a unit vector and not the
    reversal of the reference. *)
Lemma keySwitch_turn (key : string) (ref d : Cell) :
  keySwitch key ref = Some (Some d) ->
  unitDir d = true /\ d <> opposite ref.
Proof.
  unfold keySwitch.
  repeat match goal with
         | |- context [if keyIn ?k ?l then _ else _] => destruct (keyIn k l)
         end; try discriminate.
  - destruct (y ref =? 1) eqn:E; simpl; intros H; inversion H; subst.
    split; [reflexivity|]. apply Z.eqb_neq in E. intros C.
    unfold opposite in C. inversion C. lia.
  - destruct (y ref =? -1) eqn:E; simpl; intros H; inversion H; subst.
    split; [reflexivity|]. apply Z.eqb_neq in E. intros C.
    unfold opposite in C. inversion C. lia.
  - destruct (x ref =? 1) eqn:E; simpl; intros H; inversion H; subst.
    split; [reflexivity|]. apply Z.eqb_neq in E. intros C.
    unfold opposite in C. inversion C. lia.
  - destruct (x ref =? -1) eqn:E; simpl; intros H; inversion H; subst.
    split; [reflexivity|]. apply Z.eqb_neq in E. intros C.
    unfold opposite in C. inversion C. lia.
Qed.

(** What the two reversal guards of the button handler let through is not
    the reversal of the reference, unless it is the reference itself. *)
Lemma click_guards_turn (ref d : Cell) :
  negb (x ref =? 0) && (x d =? - x ref) = false ->
  negb (y ref =? 0) && (y d =? - y ref) = false ->
  d <> ref -> d <> opposite ref.
Proof.
  intros Hx Hy Hne C. apply Hne. subst d. unfold opposite in *. simpl in *.
  rewrite Z.eqb_refl, andb_true_r in Hx, Hy.
  apply negb_false_iff, Z.eqb_eq in Hx. apply negb_false_iff, Z.eqb_eq in Hy.
  destruct ref as [rx ry]. simpl in *. subst. reflexivity.
Qed.

Lemma last_cons (queue : list Cell) :
  forall a ref, List.last (a :: queue) ref = List.last queue a.
Proof.
  induction queue as [|b queue IH]; intros a ref; [reflexivity|].
  change (List.last (b :: queue) ref = List.last (b :: queue) a).
  now rewrite !IH.
Qed.

Lemma turnsFrom_snoc (queue : list Cell) :
  forall (ref d : Cell),
  turnsFrom ref queue ->
  d <> List.last queue ref -> d <> opposite (List.last queue ref) ->
  turnsFrom ref (queue ++ [d]).
Proof.
  induction queue as [|a queue IH]; intros ref d Ht Hne Hop.
  - simpl in *. auto.
  - destruct Ht as [H1 [H2 H3]]. simpl app. split; [exact H1|]. split; [exact H2|].
    rewrite last_cons in Hne, Hop. apply IH; assumption.
Qed.

Lemma last_unit (queue : list Cell) :
  forall ref, unitDir ref = true -> forallb unitDir queue = true ->
  unitDir (List.last queue ref) = true.
Proof.
  induction queue as [|a queue IH]; intros ref Hr Hq; [exact Hr|].
  simpl in Hq. apply andb_true_iff in Hq. destruct Hq as [Ha Hq].
  rewrite last_cons. apply IH; assumption.
Qed.

(** What [pushIfNew] does to the queue. *)
Lemma pushIfNew_queue (d : Cell) (st : GameState) :
  (d = lastDir st /\ pushIfNew d st = st) \/
  (d <> lastDir st /\
   pushIfNew d st = setDirectionQueue (directionQueue st ++ [d]) st).
Proof.
  unfold pushIfNew. destruct (differs (lastDir st) d) eqn:E.
  - right. apply differs_true in E. split; [congruence | reflexivity].
  - left. split; [|reflexivity].
    destruct (Cell_eq_dec (lastDir st) d) as [H|H]; [congruence|].
    apply differs_true in H. congruence.
Qed.

Lemma handleKeyDown_queue (key : string) (st : GameState) :
  queueGrowsByTurn st (handleKeyDown key st) /\
  direction (handleKeyDown key st) = direction st /\
  snake (handleKeyDown key st) = snake st /\
  score (handleKeyDown key st) = score st /\
  highScore (handleKeyDown key st) = highScore st /\
  hasStarted (handleKeyDown key st) = hasStarted st /\
  gameOver (handleKeyDown key st) = gameOver st /\
  setItemCalls (handleKeyDown key st) = setItemCalls st.
Proof.
  unfold handleKeyDown, queueGrowsByTurn.
  destruct (negb (hasStarted st) || gameOver st); [repeat split; now left|].
  destruct (keySwitch key (lastDir st)) as [[d|]|] eqn:Hk;
    try (repeat split; now left).
  apply keySwitch_turn in Hk. destruct Hk as [Hu Hop].
  destruct (pushIfNew_queue d st) as [[_ ->] | [Hne ->]].
  - repeat split; now left.
  - repeat split. right. exists d. repeat split; assumption.
Qed.

Lemma handleDirectionClick_queue (b : DirectionButton) (st : GameState) :
  queueGrowsByTurn st (handleDirectionClick (buttonDir b) st) /\
  direction (handleDirectionClick (buttonDir b) st) = direction st /\
  snake (handleDirectionClick (buttonDir b) st) = snake st /\
  score (handleDirectionClick (buttonDir b) st) = score st /\
  highScore (handleDirectionClick (buttonDir b) st) = highScore st /\
  hasStarted (handleDirectionClick (buttonDir b) st) = hasStarted st /\
  gameOver (handleDirectionClick (buttonDir b) st) = gameOver st /\
  setItemCalls (handleDirectionClick (buttonDir b) st) = setItemCalls st.
Proof.
  unfold handleDirectionClick, queueGrowsByTurn.
  destruct (negb (hasStarted st) || gameOver st || isPaused st);
    [repeat split; now left|].
  destruct (negb (x (lastDir st) =? 0) && (x (buttonDir b) =? - x (lastDir st))) eqn:Hx;
    [repeat split; now left|].
  destruct (negb (y (lastDir st) =? 0) && (y (buttonDir b) =? - y (lastDir st))) eqn:Hy;
    [repeat split; now left|].
  destruct (pushIfNew_queue (buttonDir b) st) as [[_ ->] | [Hne ->]].
  - repeat split; now left.
  - repeat split. right. exists (buttonDir b). repeat split.
    + now destruct b.
    + assumption.
    + now apply click_guards_turn.
Qed.

(** * What the handlers preserve *)

Lemma running_flags (st : GameState) :
  running st = true ->
  hasStarted st = true /\ gameOver st = false /\ isPaused st = false.
Proof.
  unfold running. destruct (hasStarted st), (gameOver st), (isPaused st);
    simpl; intros H; try discriminate H; repeat split.
Qed.

Lemma Ticks_frame (st st' : GameState) (ds rest : list Q) :
  Ticks st ds st' rest -> TickFrame st st'.
Proof.
  intros H.
  pose proof (takeDirection_only_direction st) as Hd.
  destruct Hd as [Hdir [Hq [Hhs [Hsn [_ [_ [_ [Hsc [Hhi [Hip [_ Hstore]]]]]]]]]]].
  pose proof (takeDirection_gameOver st) as Hgo.
  destruct H as
    [ ds Hr
    | ds head body Hr Hs Hc
    | ds head body Hr Hs Hc Hfi
    | ds head body i f Hr Hs Hc Hfi Hnth Hlm
    | ds head body i f Hr Hs Hc Hfi Hnth Hlm Hlen
    | q ds rest head body i f nextWord newFoods Hr Hs Hc Hfi Hnth Hlm Hlen Hw0 Hgen ].
  - constructor; auto.
  - constructor; simpl; auto. intros _. rewrite Hsn, Hs. discriminate.
  - constructor; simpl; auto.
    intros _. rewrite Hs.
    change (removelast (advance head (nextDirection st) :: head :: body))
      with (advance head (nextDirection st) :: removelast (head :: body)).
    discriminate.
  - constructor; simpl; auto. intros _. rewrite Hsn, Hs. discriminate.
  - destruct (running_flags st Hr) as [_ [Hg _]].
    constructor; simpl; auto.
    + right. rewrite Hsc, Hgo. auto.
    + intros _. discriminate.
  - destruct (running_flags st Hr) as [_ [Hg _]].
    constructor; simpl; auto.
    + right. rewrite Hsc, Hgo. split; [exact Hr|]. split; [exact Hg|]. right. lia.
    + intros _. discriminate.
Qed.

Lemma not_snoc_self {A : Type} (q : list A) (d : A) : q <> q ++ [d].
Proof.
  intros E. apply (f_equal (@List.length A)) in E.
  rewrite length_app in E. simpl in E. lia.
Qed.

Lemma tl_not_snoc {A : Type} (q : list A) (d : A) : tl q <> q ++ [d].
Proof.
  intros E. apply (f_equal (@List.length A)) in E.
  rewrite length_app in E. destruct q; simpl in E; lia.
Qed.

Lemma nextDirection_facts (st : GameState) :
  Invariant st ->
  unitDir (nextDirection st) = true /\
  forallb unitDir (tl (directionQueue st)) = true /\
  turnsFrom (nextDirection st) (tl (directionQueue st)) /\
  nextDirection st <> opposite (direction st).
Proof.
  intros [Hu Hus Ht _ _ _ _]. unfold nextDirection.
  destruct (directionQueue st) as [|d q]; simpl in *.
  - repeat split; auto. now apply unitDir_not_opposite.
  - apply andb_true_iff in Hus. destruct Hus as [Hd Hq].
    destruct Ht as [_ [Hop Ht]]. repeat split; assumption.
Qed.

(** A handler that keeps direction, snake, score, high score, store and
    [hasStarted] once set, and lets the queue grow by a turn at most. *)
Lemma quiet_handler_facts (ev : Event) (st st1 : GameState) :
  Invariant st ->
  match ev with ResetClick => gameOver st = false | _ => True end ->
  queueGrowsByTurn st st1 ->
  direction st1 = direction st ->
  snake st1 = snake st ->
  score st1 = score st ->
  highScore st1 = highScore st ->
  (hasStarted st1 = false -> hasStarted st = false) ->
  setItemCalls st1 = setItemCalls st ->
  HandleFacts ev st st1.
Proof.
  intros Hinv Hev Hq Hd Hsn Hsc Hhi Hhs Hst.
  pose proof Hinv as [Hu Hus Ht Hs Hidle Hnn Hhigh].
  assert (Hqueue : forallb unitDir (directionQueue st1) = true /\
                   turnsFrom (direction st1) (directionQueue st1)).
  { rewrite Hd. destruct Hq as [-> | [d [-> [Hdu [Hne Hop]]]]]; [now split|]. split.
    - rewrite forallb_app, Hus. simpl. now rewrite Hdu.
    - apply turnsFrom_snoc; assumption. }
  destruct Hqueue as [Hus1 Ht1].
  constructor; try assumption; try congruence.
  - rewrite Hsc. auto.
  - intros _. rewrite Hd. now apply unitDir_not_opposite.
  - intros d Heq. destruct Hq as [Hsame | [d' [Hgrow [_ [Hne Hop]]]]].
    + rewrite Hsame in Heq. now apply not_snoc_self in Heq.
    + rewrite Hgrow in Heq. apply app_inv_head in Heq. injection Heq as <-. now split.
  - destruct ev; try exact Hsc.
    + now left.
    + split; [congruence | auto].
Qed.

Lemma tick_facts (st st1 : GameState) (ds rest : list Q) :
  Invariant st -> Ticks st ds st1 rest -> HandleFacts Tick st st1.
Proof.
  intros Hinv HT.
  pose proof (Ticks_frame _ _ _ _ HT) as [Hhs Hip Hhi Hst Hdir Hsc Hsn].
  pose proof Hinv as [Hu Hus Ht Hs Hidle Hnn Hhigh].
  destruct (nextDirection_facts st Hinv) as [Hnu [Hnus [Hnt Hnop]]].
  assert (Hnn1 : 0 <= score st1)
    by (destruct Hsc as [-> | [_ [_ [-> | ->]]]]; lia).
  assert (Hidle1 : hasStarted st1 = false -> score st1 = 0).
  { intros H. rewrite Hhs in H. destruct Hsc as [-> | [Hr _]]; [auto|].
    apply running_flags in Hr. destruct Hr as [Hr _]. congruence. }
  assert (Hover : gameOver st = false -> gameOver st1 = true -> score st1 = score st).
  { intros _ H1. destruct Hsc as [-> | [_ [H2 _]]]; congruence. }
  destruct Hdir as [[Hr Heq] | [Hr [Hd Hq]]].
  - subst st1. constructor; auto.
    + intros _. now apply unitDir_not_opposite.
    + intros d E. now apply not_snoc_self in E.
  - constructor; auto.
    + rewrite Hd. exact Hnu.
    + rewrite Hq. exact Hnus.
    + rewrite Hd, Hq. exact Hnt.
    + intros _. rewrite Hd. exact Hnop.
    + intros d E. rewrite Hq in E. now apply tl_not_snoc in E.
Qed.

Lemma resetGame_facts (st st1 : GameState) (ds rest : list Q) :
  gameOver st = true ->
  resetGame st ds = Returned st1 rest -> HandleFacts ResetClick st st1.
Proof.
  intros Hgo. unfold resetGame, bind, randomWord, bind, random, ret.
  destruct ds as [|q ds]; [discriminate|].
  destruct (wordAt _) as [newWord|]; [|discriminate].
  destruct (generateFoodsForWord newWord INITIAL_SNAKE ds) as [newFoods rest'| |];
    try discriminate.
  intros E. injection E as <- <-.
  constructor; simpl; try reflexivity; try discriminate; try lia; try congruence.
  - intros d E. now apply app_cons_not_nil in E.
  - split; [reflexivity | congruence].
Qed.

Ltac quiet :=
  apply quiet_handler_facts; try assumption; try (now left); try reflexivity;
  try exact I; try (simpl; congruence).

Lemma handle_facts (ev : Event) (st st1 : GameState) (ds rest : list Q) :
  Invariant st -> handle ev st ds = Returned st1 rest -> HandleFacts ev st st1.
Proof.
  intros Hinv. destruct ev; simpl; unfold ret.
  - intros H. apply step_Ticks in H. eapply tick_facts; eauto.
  - intros E. injection E as <- <-.
    destruct (handleKeyDown_queue key st) as [Hq [Hd [Hsn [Hsc [Hhi [Hhs [_ Hst]]]]]]].
    quiet.
  - intros E. injection E as <- <-.
    destruct (handleDirectionClick_queue b st) as [Hq [Hd [Hsn [Hsc [Hhi [Hhs [_ Hst]]]]]]].
    quiet.
  - intros E. injection E as <- <-.
    destruct (hasStarted st && negb (gameOver st)); quiet.
  - intros E. injection E as <- <-.
    destruct (isPaused st && negb (gameOver st) && hasStarted st); quiet.
  - intros E. injection E as <- <-.
    destruct (negb (hasStarted st)); quiet.
  - destruct (gameOver st) eqn:Hgo.
    + now apply resetGame_facts.
    + intros E. injection E as <- <-. quiet.
Qed.

Lemma dispatch_handle (ev : Event) (st st' : GameState) (ds rest : list Q) :
  dispatch ev st ds = Returned st' rest ->
  exists st1, handle ev st ds = Returned st1 rest /\ st' = afterRender st st1.
Proof.
  unfold dispatch, bind, ret.
  destruct (handle ev st ds) as [st1 rest1| |]; try discriminate.
  intros E. injection E as <- <-. now exists st1.
Qed.

Lemma dispatch_invariant (ev : Event) (st st' : GameState) (ds rest : list Q) :
  Invariant st -> dispatch ev st ds = Returned st' rest -> Invariant st'.
Proof.
  intros Hinv Hd. apply dispatch_handle in Hd. destruct Hd as [st1 [Hh ->]].
  pose proof (handle_facts ev st st1 ds rest Hinv Hh) as F.
  destruct (afterRender_frame st st1)
    as [Hhs [Hsn [Hdir [Hq [_ [_ [_ [Hsc [_ [_ _]]]]]]]]]].
  destruct (afterRender_store st st1 (inv_high st Hinv) (hf_highScore _ _ _ F))
    as [_ Hmax].
  constructor.
  - rewrite Hdir. apply F.
  - rewrite Hq. apply F.
  - rewrite Hdir, Hq. apply F.
  - rewrite Hsn. apply F.
  - rewrite Hhs, Hsc. apply F.
  - rewrite Hsc. apply F.
  - rewrite Hsc, Hmax. lia.
Qed.

Lemma mount_invariant (saved : option Z) (ds rest : list Q) (st : GameState) :
  mount saved ds = Returned st rest -> Invariant st.
Proof.
  unfold mount. destruct (wordAt 0) as [word0|]; [|discriminate].
  unfold bind, ret.
  destruct (generateFoodsForWord word0 INITIAL_SNAKE ds) as [foods0 rest0| |];
    try discriminate.
  intros E. injection E as <- <-. unfold highScoreEffect. simpl.
  destruct (0 >? match saved with Some v => v | None => 0 end) eqn:Hgt;
    constructor; simpl; try reflexivity; try discriminate; try lia.
Qed.

Lemma Reachable_Invariant (st : GameState) : Reachable st -> Invariant st.
Proof.
  induction 1 as [saved ds rest st Hm | st st' ev ds rest _ IH Hd].
  - eapply mount_invariant; eauto.
  - eapply dispatch_invariant; eauto.
Qed.

(** * Worked runs *)

Lemma mounted_reachable : Reachable mounted.
Proof. apply (reach_mount None drawsMount []). reflexivity. Qed.

Lemma started_reachable : Reachable started.
Proof.
  apply (reach_dispatch mounted started StartClick [] []); [apply mounted_reachable|].
  reflexivity.
Qed.

Lemma pausedGame_reachable : Reachable pausedGame.
Proof.
  apply (reach_dispatch started pausedGame (KeyDown " ") [] []);
    [apply started_reachable|].
  reflexivity.
Qed.

(** * Claims about whole runs *)

(** C4.  In every state the component reaches, and for every event but a
    reset: the committed direction after the event is not the reversal of
    the one before it; and whenever an event appends a direction to the
    queue, that direction differs from the reference direction (the last
    queued one, or the committed one when the queue is empty) and is not its
    reversal.  The queue so stays a chain of turns for the ticks to come. *)
Theorem direction_never_reversed
    (st st' : GameState) (ev : Event) (ds rest : list Q) :
  Reachable st ->
  dispatch ev st ds = Returned st' rest ->
  (ev <> ResetClick -> direction st' <> opposite (direction st)) /\
  (forall d, directionQueue st' = directionQueue st ++ [d] ->
             d <> lastDir st /\ d <> opposite (lastDir st)) /\
  turnsFrom (direction st') (directionQueue st').
Proof.
  intros Hreach Hd. apply Reachable_Invariant in Hreach.
  apply dispatch_handle in Hd. destruct Hd as [st1 [Hh ->]].
  pose proof (handle_facts ev st st1 ds rest Hreach Hh) as F.
  destruct (afterRender_frame st st1) as [_ [_ [Hdir [Hq _]]]].
  rewrite Hdir, Hq. split; [|split]; apply F.
Qed.

Lemma direction_never_reversed_witness :
  direction (handleKeyDown "ArrowLeft" started) <> opposite (direction started) /\
  (forall d,
     directionQueue (handleKeyDown "ArrowLeft" started)
       = directionQueue started ++ [d] ->
     d <> lastDir started /\ d <> opposite (lastDir started)) /\
  turnsFrom (direction (handleKeyDown "ArrowLeft" started))
            (directionQueue (handleKeyDown "ArrowLeft" started)).
Proof.
  destruct (direction_never_reversed started (handleKeyDown "ArrowLeft" started)
              (KeyDown "ArrowLeft") [] [] started_reachable eq_refl)
    as [Hrev [Hpush Hturns]].
  split; [apply Hrev; discriminate|]. split; [exact Hpush | exact Hturns].
Defined.



(** C8, as the code has it.  The store's [setItem] is called by the
    high-score effect whenever a render leaves the score above the high
    score held in state, once, with that score.  After an event that
    happens only on a tick taken while Running that eats a letter and does
    not end the game; a tick or any other event that ends the game calls it
    never.  At mount, before the game is started, it happens when the
    stored value is below 0, and then 0 is written. *)
Theorem store_written_when_score_passes_high
    (st st' : GameState) (ev : Event) (ds rest : list Q) :
  Reachable st ->
  dispatch ev st ds = Returned st' rest ->
  setItemCalls st'
    = setItemCalls st ++ (if score st' >? highScore st then [score st'] else []) /\
  (score st' > highScore st ->
     ev = Tick /\ running st = true /\ gameOver st' = false) /\
  (gameOver st = false -> gameOver st' = true ->
     setItemCalls st' = setItemCalls st) /\
  (forall saved ds0 st0 rest0,
     mount saved ds0 = Returned st0 rest0 ->
     hasStarted st0 = false /\
     setItemCalls st0
       = (if match saved with Some v => v | None => 0 end <? 0 then [0] else [])).
Proof.
  intros Hreach Hd.
  assert (Hmount : forall saved ds0 st0 rest0,
             mount saved ds0 = Returned st0 rest0 ->
             hasStarted st0 = false /\
             setItemCalls st0
               = (if match saved with Some v => v | None => 0 end <? 0
                  then [0] else [])).
  { intros saved ds0 st0 rest0. unfold mount.
    destruct (wordAt 0) as [word0|]; [|discriminate]. unfold bind, ret.
    destruct (generateFoodsForWord word0 INITIAL_SNAKE ds0) as [foods0 r| |];
      try discriminate.
    intros E. injection E as <- _. unfold highScoreEffect.
    cbn [score highScore]. rewrite Z.gtb_ltb.
    destruct (match saved with Some v => v | None => 0 end <? 0);
      split; reflexivity. }
  apply Reachable_Invariant in Hreach.
  apply dispatch_handle in Hd. destruct Hd as [st1 [Hh ->]].
  pose proof (handle_facts ev st st1 ds rest Hreach Hh) as F.
  destruct (afterRender_frame st st1)
    as [_ [_ [_ [_ [_ [_ [_ [Hsc [Hgo _]]]]]]]]].
  destruct (afterRender_store st st1 (inv_high st Hreach) (hf_highScore _ _ _ F))
    as [Hstore _].
  rewrite Hstore, Hsc, Hgo, (hf_store _ _ _ F).
  pose proof (inv_high st Hreach) as Hhigh.
  pose proof (inv_score_nonneg st Hreach) as Hnn.
  split; [reflexivity|]. split.
  - intros Hgt. pose proof (hf_score _ _ _ F) as Hs.
    destruct ev; cbn in Hs; try lia.
    + destruct Hs as [Hs | [Hr [Hg _]]]; [lia|]. auto.
    + destruct (gameOver st); destruct Hs as [H1 H2];
        [rewrite H1 in Hgt by reflexivity | rewrite H2 in Hgt by reflexivity]; lia.
  - split; [|exact Hmount].
    intros H0 H1. rewrite (hf_over _ _ _ F H0 H1).
    destruct (score st >? highScore st) eqn:E; [|apply app_nil_r].
    rewrite Z.gtb_ltb in E. apply Z.ltb_lt in E. lia.
Qed.

Lemma store_written_when_score_passes_high_witness :
  (exists st',
     dispatch Tick started [] = Returned st' [] /\
     setItemCalls st' = [10] /\ gameOver st' = false) /\
  (exists st0,
     mount (Some (-5)) drawsMount = Returned st0 [] /\
     hasStarted st0 = false /\ setItemCalls st0 = [0]).
Proof.
  destruct (store_written_when_score_passes_high started _ Tick [] []
              started_reachable eq_refl) as [Hstore [Hrun [_ Hmount]]].
  split.
  - eexists. split; [reflexivity|].
    split; [exact Hstore|].
    apply Hrun. reflexivity.
  - eexists. split; [reflexivity|].
    exact (Hmount (Some (-5)) drawsMount _ [] eq_refl).
Defined.

(** C8 fails as stated: in the game mounted above the first tick eats 'S';
    the game is Running before and after it and [setItem] is called with 10.
    Ten ticks later the snake leaves the board: the game is over and nothing
    more was written. *)
Lemma store_written_while_running :
  mount None drawsMount = Returned mounted [] /\
  dispatch StartClick mounted [] = Returned started [] /\
  running started = true /\
  (exists ate crashed,
     dispatch Tick started [] = Returned ate [] /\
     running ate = true /\
     setItemCalls started = [] /\
     setItemCalls ate = [10] /\
     ticks 10 ate [] = Returned crashed [] /\
     gameOver crashed = true /\
     setItemCalls crashed = [10]).
Proof.
  split; [reflexivity|]. split; [reflexivity|]. split; [reflexivity|].
  eexists. eexists.
  split; [reflexivity|]. split; [reflexivity|]. split; [reflexivity|].
  split; [reflexivity|]. split; [vm_compute; reflexivity|].
  split; reflexivity.
Qed.

(** * Input while paused *)

Lemma paused_flags (st : GameState) :
  paused st = true ->
  hasStarted st = true /\ gameOver st = false /\ isPaused st = true.
Proof.
  unfold paused. destruct (hasStarted st), (gameOver st), (isPaused st);
    simpl; intros H; try discriminate H; repeat split.
Qed.

(** Against a unit reference the key switch blocks exactly the reversal. *)
Lemma keySwitch_unit (key : string) (ref d : Cell) :
  unitDir ref = true ->
  keyDirection key = Some d ->
  keySwitch key ref = Some (if sameCell d (opposite ref) then None else Some d).
Proof.
  intros Hu. unfold keyDirection, keySwitch.
  repeat match goal with
         | |- context [if keyIn ?k ?l then _ else _] => destruct (keyIn k l)
         end; simpl; intros E; try discriminate E; injection E as <-;
    destruct (unitDir_cases ref Hu) as [-> | [-> | [-> | ->]]]; reflexivity.
Qed.

Lemma lastDir_unit (st : GameState) : Invariant st -> unitDir (lastDir st) = true.
Proof. intros H. apply last_unit; apply H. Qed.


(** * Further properties of the generator *)

Lemma placeLetters_letters (letters : string) :
  forall i foods occupied ds fs rest,
  placeLetters i letters foods occupied ds = Returned fs rest ->
  map letter fs = map letter foods ++ lettersOf letters.
Proof.
  induction letters as [|c letters IH]; intros i foods occupied ds fs rest; simpl.
  - unfold ret. intros E. injection E as <- _. now rewrite app_nil_r.
  - unfold bind. destruct (sampleFree occupied ds) as [p ds1| |]; try discriminate.
    intros H. apply IH in H. rewrite H, map_app, <- app_assoc. reflexivity.
Qed.

(** The generator returns exactly when the candidates of the supply hold as
    many distinct free cells as the word has letters; otherwise it is still
    sampling when the supply ends. *)
Theorem generateFoodsForWord_returns_iff
    (W : string) (occupied : list Cell) (ds : list Q) :
  ((exists foods rest, generateFoodsForWord W occupied ds = Returned foods rest)
     <-> (String.length W <= List.length (freshCandidates occupied ds))%nat) /\
  (generateFoodsForWord W occupied ds = Spinning
     <-> (List.length (freshCandidates occupied ds) < String.length W)%nat).
Proof.
  assert (Hiff : (exists foods rest,
                    generateFoodsForWord W occupied ds = Returned foods rest)
                 <-> (String.length W <= List.length (freshCandidates occupied ds))%nat).
  { split.
    - intros [foods [rest Hgen]]. unfold generateFoodsForWord in Hgen.
      apply placeLetters_spec in Hgen.
      destruct Hgen as [added [_ [Hlen [Hnd [Hfree [Hcand _]]]]]].
      rewrite <- Hlen, <- (length_map foodCell).
      apply NoDup_incl_length; [exact Hnd|].
      intros c Hc. apply in_map_iff in Hc. destruct Hc as [f [<- Hf]].
      apply nodup_In, filter_In. split; [now apply Hcand|].
      unfold freeIn. apply negb_true_iff, isOccupied_false. now apply Hfree.
    - apply placeLetters_returns. }
  split; [exact Hiff|]. split.
  - intros Hspin. apply Nat.lt_nge. intros Hle. apply Hiff in Hle.
    destruct Hle as [foods [rest Hgen]]. congruence.
  - intros Hlt. destruct (generateFoodsForWord W occupied ds) as [foods rest| |] eqn:Hgen.
    + assert (Hle : (String.length W <= List.length (freshCandidates occupied ds))%nat)
        by (apply Hiff; eauto).
      lia.
    + reflexivity.
    + exfalso. revert Hgen. apply placeLetters_never_throws.
Qed.

(** * The board of a reachable state *)

Lemma removelast_cons2 {A : Type} (a b : A) (l : list A) :
  removelast (a :: b :: l) = a :: removelast (b :: l).
Proof. reflexivity. Qed.

Lemma In_removelast {A : Type} (l : list A) (c : A) :
  In c (removelast l) -> In c l.
Proof.
  induction l as [|a l IH]; [intros []|].
  destruct l as [|b l]; [intros []|].
  rewrite removelast_cons2. intros [-> | H]; [now left | right; now apply IH].
Qed.

Lemma NoDup_removelast {A : Type} (l : list A) :
  NoDup l -> NoDup (removelast l).
Proof.
  induction l as [|a l IH]; [intros; constructor|].
  destruct l as [|b l]; [intros; constructor|].
  rewrite removelast_cons2. intros H. inversion H as [|? ? Hn Hnd]; subst.
  constructor; [|now apply IH].
  intros Hin. apply Hn. now apply In_removelast.
Qed.

Lemma Forall_removelast {A : Type} (P : A -> Prop) (l : list A) :
  Forall P l -> Forall P (removelast l).
Proof.
  rewrite !Forall_forall. intros H c Hc. apply H. now apply In_removelast.
Qed.

Lemma splice1_Permutation {A : Type} (l : list A) :
  forall i f, nth_error l i = Some f -> Permutation l (f :: splice1 i l).
Proof.
  induction l as [|a l IH]; intros [|i] f H; simpl in H; try discriminate.
  - injection H as <-. reflexivity.
  - simpl. apply IH in H. rewrite H at 1. apply perm_swap.
Qed.

Lemma findIndex_Some {A : Type} (p : A -> bool) (l : list A) :
  forall i f, findIndex p l = Some i -> nth_error l i = Some f -> p f = true.
Proof.
  induction l as [|a l IH]; intros i f; simpl; [discriminate|].
  destruct (p a) eqn:Hp.
  - intros E. injection E as <-. simpl. intros E. now injection E as <-.
  - destruct (findIndex p l) as [k|]; [|discriminate].
    intros E. injection E as <-. simpl. now apply IH.
Qed.

Lemma findIndex_None {A : Type} (p : A -> bool) (l : list A) :
  findIndex p l = None -> forall f, In f l -> p f = false.
Proof.
  induction l as [|a l IH]; simpl; [intros _ f []|].
  destruct (p a) eqn:Hp; [discriminate|].
  destruct (findIndex p l); [discriminate|].
  intros _ f [<- | Hf]; [exact Hp | now apply IH].
Qed.

(** [findIndex] gives an index of the array. *)
Lemma findIndex_in_range {A : Type} (p : A -> bool) (l : list A) :
  forall i, findIndex p l = Some i -> exists f, nth_error l i = Some f.
Proof.
  induction l as [|a l IH]; intros i; simpl; [discriminate|].
  destruct (p a).
  - intros E. injection E as <-. now exists a.
  - destruct (findIndex p l) as [k|]; [|discriminate].
    intros E. injection E as <-. simpl. now apply IH.
Qed.

Lemma onFood_true (newHead : Cell) (f : Food) :
  onFood newHead f = true <-> foodCell f = newHead.
Proof.
  unfold onFood, foodCell. rewrite andb_true_iff, !Z.eqb_eq.
  destruct newHead as [hx hy]. simpl. split.
  - intros [-> ->]. reflexivity.
  - intros E. now inversion E.
Qed.

Lemma length_lettersOf (w : string) : List.length (lettersOf w) = String.length w.
Proof. induction w as [|c w IH]; simpl; [reflexivity | now rewrite IH]. Qed.

Lemma skipn_get (w : string) :
  forall i c, String.get i w = Some c ->
  skipn i (lettersOf w) = c :: skipn (S i) (lettersOf w).
Proof.
  induction w as [|a w IH]; intros i c; simpl; [discriminate|].
  destruct i as [|i].
  - intros E. now injection E as <-.
  - intros E. apply IH in E. exact E.
Qed.

Lemma WORDS_nonempty (w : string) : In w WORDS -> (0 < String.length w)%nat.
Proof.
  assert (H : forallb (fun v => (0 <? String.length v)%nat) WORDS = true) by reflexivity.
  rewrite forallb_forall in H. intros Hin. apply Nat.ltb_lt. now apply H.
Qed.

Lemma wordAt_In (i : Z) (w : string) : wordAt i = Some w -> In w WORDS.
Proof.
  unfold wordAt. destruct (i <? 0); [discriminate|]. apply nth_error_In.
Qed.

(** The foods the generator returns, as the board needs them. *)
Lemma generated_foods (W : string) (occupied : list Cell) (ds rest : list Q)
    (fs : list Food) :
  generateFoodsForWord W occupied ds = Returned fs rest ->
  NoDup (map foodCell fs) /\
  (forall f, In f fs -> ~ In (foodCell f) occupied) /\
  map letter fs = lettersOf W.
Proof.
  intros Hgen. unfold generateFoodsForWord in Hgen.
  pose proof (placeLetters_letters _ _ _ _ _ _ _ Hgen) as Hl.
  apply placeLetters_spec in Hgen.
  destruct Hgen as [added [Hfs [_ [Hnd [Hfree _]]]]]. simpl in Hfs. subst added.
  repeat split; assumption.
Qed.

(** Reduce the projections of a state built by setters, and nothing else. *)
Ltac fields :=
  cbn [hasStarted snake direction directionQueue word wordIndex foods score
       highScore gameOver isPaused speed setItemCalls
       setHasStarted setSnake setDirection setDirectionQueue setWord setWordIndex
       setFoods setScore setHighScore setGameOver setIsPaused setSpeed
       localStorageSetItem].

Lemma Ticks_board (st st' : GameState) (ds rest : list Q) :
  Board st -> Ticks st ds st' rest -> Board st'.
Proof.
  intros HB HT.
  pose proof HB as [Hsg Hsn Hsl Hfn Hfo Hw Hi Hl Hsp Hov Hpa].
  pose proof (takeDirection_only_direction st) as Hd.
  destruct Hd as [_ [_ [Hhs [Hsnk [Hwd [Hwi [Hfd [_ [_ [Hip [Hspd _]]]]]]]]]]].
  pose proof (takeDirection_gameOver st) as Hgo.
  destruct HT as
    [ ds Hr
    | ds head body Hr Hs Hc
    | ds head body Hr Hs Hc Hfi
    | ds head body i f Hr Hs Hc Hfi Hnth Hlm
    | ds head body i f Hr Hs Hc Hfi Hnth Hlm Hlen
    | q ds rest head body i f nextWord newFoods Hr Hs Hc Hfi Hnth Hlm Hlen Hw0 Hgen ];
    [ exact HB | | | | | ];
    destruct (running_flags st Hr) as [Hst [Hg Hp]];
    try (apply orb_false_iff in Hc; destruct Hc as [Hwall Hself];
         apply hitsWall_false in Hwall;
         assert (Hnew : ~ In (advance head (nextDirection st)) (snake st))
           by (intros Hin; apply hitsSelf_true in Hin; congruence)).
  - constructor; fields; rewrite ?Hsnk, ?Hfd, ?Hwd, ?Hwi, ?Hspd, ?Hhs, ?Hip; auto.
  - constructor; fields; rewrite ?Hsnk, ?Hfd, ?Hwd, ?Hwi, ?Hspd, ?Hhs, ?Hip, ?Hgo; auto.
    + rewrite Hs, removelast_cons2, <- Hs. constructor; [exact Hwall|].
      now apply Forall_removelast.
    + rewrite Hs, removelast_cons2, <- Hs. constructor.
      * intros Hin. apply Hnew. now apply In_removelast.
      * now apply NoDup_removelast.
    + rewrite length_removelast_cons. exact Hsl.
    + intros g Hg' Hin. rewrite Hs, removelast_cons2, <- Hs in Hin.
      destruct Hin as [E | Hin].
      * pose proof (findIndex_None _ _ Hfi g Hg') as Hno.
        symmetry in E. apply onFood_true in E. congruence.
      * apply (Hfo g Hg'). now apply In_removelast.
  - constructor; fields; rewrite ?Hsnk, ?Hfd, ?Hwd, ?Hwi, ?Hspd, ?Hhs, ?Hip; auto.
  - pose proof (splice1_Permutation (foods st) i f Hnth) as Hperm.
    pose proof (findIndex_Some _ _ _ _ Hfi Hnth) as Hon. apply onFood_true in Hon.
    assert (Hnd' : NoDup (map foodCell (f :: splice1 i (foods st)))).
    { eapply Permutation_NoDup; [|exact Hfn]. now apply Permutation_map. }
    simpl in Hnd'. inversion Hnd' as [|? ? Hnotin Hnd'']; subst.
    constructor; fields; rewrite ?Hsnk, ?Hfd, ?Hwd, ?Hwi, ?Hspd, ?Hhs, ?Hip, ?Hgo; auto.
    + constructor; assumption.
    + constructor; assumption.
    + intros g Hg' [E | Hin].
      * apply Hnotin. rewrite Hon, E. now apply in_map.
      * apply (Hfo g); [|exact Hin].
        eapply Permutation_in; [symmetry; exact Hperm|]. now right.
    + apply letterMatches_true in Hlm. apply skipn_get in Hlm.
      apply (Permutation_map letter) in Hperm. simpl in Hperm.
      rewrite Hperm, Hlm in Hl. now apply Permutation_cons_inv in Hl.
  - destruct (generated_foods _ _ _ _ _ Hgen) as [Hgn [Hgf Hgl]].
    pose proof (wordAt_In _ _ Hw0) as Hin.
    constructor; fields; rewrite ?Hsnk, ?Hfd, ?Hwd, ?Hwi, ?Hspd, ?Hhs, ?Hip, ?Hgo; auto.
    + constructor; assumption.
    + constructor; assumption.
    + now apply WORDS_nonempty.
    + rewrite Hgl. reflexivity.
    + unfold BASE_SPEED in *. lia.
Qed.

Lemma pushIfNew_frame (d : Cell) (st : GameState) : QuietFrame st (pushIfNew d st).
Proof.
  unfold pushIfNew. destruct (differs (lastDir st) d); constructor; auto.
Qed.

Lemma handleKeyDown_frame (key : string) (st : GameState) :
  QuietFrame st (handleKeyDown key st).
Proof.
  unfold handleKeyDown.
  destruct (hasStarted st) eqn:Hhs; [|constructor; auto].
  destruct (gameOver st) eqn:Hgo; [constructor; auto|]. cbn [negb orb].
  destruct (keySwitch key (lastDir st)) as [[d|]|].
  - apply pushIfNew_frame.
  - constructor; auto.
  - constructor; fields; auto.
Qed.

Lemma handleDirectionClick_frame (d : Cell) (st : GameState) :
  QuietFrame st (handleDirectionClick d st).
Proof.
  unfold handleDirectionClick.
  destruct (negb (hasStarted st) || gameOver st || isPaused st); [constructor; auto|].
  destruct (negb (x (lastDir st) =? 0) && (x d =? - x (lastDir st)));
    [constructor; auto|].
  destruct (negb (y (lastDir st) =? 0) && (y d =? - y (lastDir st)));
    [constructor; auto|].
  apply pushIfNew_frame.
Qed.

(** Every handler but the tick and an enabled reset keeps snake, foods,
    word, word index, speed and [gameOver]. *)
Lemma handle_quiet_frame (ev : Event) (st st1 : GameState) (ds rest : list Q) :
  ev <> Tick ->
  (ev = ResetClick -> gameOver st = false) ->
  handle ev st ds = Returned st1 rest ->
  QuietFrame st st1 /\ rest = ds.
Proof.
  intros Hnt Hnr. destruct ev; simpl; unfold ret; try congruence.
  - intros E. injection E as <- <-. split; [apply handleKeyDown_frame | reflexivity].
  - intros E. injection E as <- <-.
    split; [apply handleDirectionClick_frame | reflexivity].
  - intros E. injection E as <- <-. split; [|reflexivity].
    destruct (hasStarted st) eqn:Hhs; [|constructor; auto].
    destruct (negb (gameOver st)); constructor; fields; auto.
  - intros E. injection E as <- <-. split; [|reflexivity].
    destruct (isPaused st && negb (gameOver st) && hasStarted st) eqn:Hc;
      [|constructor; auto].
    apply andb_true_iff in Hc. destruct Hc as [_ Hhs].
    constructor; fields; auto.
  - intros E. injection E as <- <-. split; [|reflexivity].
    destruct (negb (hasStarted st)); constructor; fields; auto.
  - rewrite (Hnr eq_refl). intros E. injection E as <- <-.
    split; [constructor; auto | reflexivity].
Qed.

Lemma QuietFrame_board (st st1 : GameState) :
  Board st -> QuietFrame st st1 -> Board st1.
Proof.
  intros [Hsg Hsn Hsl Hfn Hfo Hw Hi Hl Hsp Hov Hpa] [Es Ef Ew Ei Esp Ego Ehs Eip].
  constructor; rewrite ?Es, ?Ef, ?Ew, ?Ei, ?Esp, ?Ego; auto.
  intros Hp. destruct Eip as [H | H]; [exact H|].
  rewrite H in Hp. auto.
Qed.

Lemma INITIAL_SNAKE_board :
  Forall inGrid INITIAL_SNAKE /\ NoDup INITIAL_SNAKE.
Proof.
  split.
  - repeat constructor; unfold GRID_SIZE; simpl; lia.
  - repeat constructor; simpl; intuition discriminate.
Qed.

Lemma resetGame_board (st st1 : GameState) (ds rest : list Q) :
  Board st -> gameOver st = true ->
  resetGame st ds = Returned st1 rest -> Board st1.
Proof.
  intros HB Hgo. unfold resetGame, bind, randomWord, bind, random, ret.
  destruct ds as [|q ds]; [discriminate|].
  destruct (wordAt _) as [newWord|] eqn:Hw; [|discriminate].
  destruct (generateFoodsForWord newWord INITIAL_SNAKE ds) as [newFoods rest'| |] eqn:Hgen;
    try discriminate.
  intros E. injection E as <- <-.
  destruct (generated_foods _ _ _ _ _ Hgen) as [Hgn [Hgf Hgl]].
  pose proof (wordAt_In _ _ Hw) as Hin.
  destruct INITIAL_SNAKE_board as [Hig Hind].
  constructor; fields; auto.
  - now apply WORDS_nonempty.
  - rewrite Hgl. reflexivity.
  - unfold BASE_SPEED. lia.
  - intros _. now apply (bd_over st HB).
  - discriminate.
Qed.

Lemma handle_board (ev : Event) (st st1 : GameState) (ds rest : list Q) :
  Board st -> handle ev st ds = Returned st1 rest -> Board st1.
Proof.
  intros HB Hh.
  destruct ev;
    try (eapply QuietFrame_board; [exact HB|];
         eapply handle_quiet_frame; [| |exact Hh]; congruence).
  - apply step_Ticks in Hh. eapply Ticks_board; eauto.
  - simpl in Hh. destruct (gameOver st) eqn:Hgo.
    + eapply resetGame_board; eauto.
    + unfold ret in Hh. injection Hh as <- <-. exact HB.
Qed.

Lemma afterRender_board (prev st : GameState) : Board st -> Board (afterRender prev st).
Proof.
  intros [Hsg Hsn Hsl Hfn Hfo Hw Hi Hl Hsp Hov Hpa].
  destruct (afterRender_frame prev st)
    as [Ehs [Es [_ [_ [Ew [Ei [Ef [_ [Ego [Eip Esp]]]]]]]]]].
  constructor; rewrite ?Ehs, ?Es, ?Ew, ?Ei, ?Ef, ?Ego, ?Eip, ?Esp; auto.
Qed.

Lemma highScoreEffect_board (st : GameState) : Board st -> Board (highScoreEffect st).
Proof.
  intros HB. unfold highScoreEffect. destruct (score st >? highScore st); [|exact HB].
  destruct HB. constructor; fields; auto.
Qed.

Lemma mount_board (saved : option Z) (ds rest : list Q) (st : GameState) :
  mount saved ds = Returned st rest -> Board st.
Proof.
  unfold mount. destruct (wordAt 0) as [word0|] eqn:Hw; [|discriminate].
  unfold bind, ret.
  destruct (generateFoodsForWord word0 INITIAL_SNAKE ds) as [foods0 rest0| |] eqn:Hgen;
    try discriminate.
  intros E. injection E as <- <-.
  destruct (generated_foods _ _ _ _ _ Hgen) as [Hgn [Hgf Hgl]].
  pose proof (wordAt_In _ _ Hw) as Hin.
  destruct INITIAL_SNAKE_board as [Hig Hind].
  apply highScoreEffect_board.
  constructor; fields; auto; try discriminate.
  - now apply WORDS_nonempty.
  - rewrite Hgl. reflexivity.
  - unfold BASE_SPEED. lia.
Qed.

Lemma Reachable_Board (st : GameState) : Reachable st -> Board st.
Proof.
  induction 1 as [saved ds rest st Hm | st st' ev ds rest _ IH Hd].
  - eapply mount_board; eauto.
  - apply dispatch_handle in Hd. destruct Hd as [st1 [Hh ->]].
    apply afterRender_board. eapply handle_board; eauto.
Qed.

(** * Properties of every reachable state *)

Lemma length_allCells : List.length allCells = 400%nat.
Proof. reflexivity. Qed.

(** The snake of a reachable state lies on the board and never overlaps
    itself. *)
Theorem snake_on_board_without_overlap (st : GameState) :
  Reachable st ->
  Forall inGrid (snake st) /\ NoDup (snake st).
Proof.
  intros H. apply Reachable_Board in H. split; apply H.
Qed.

Lemma snake_on_board_without_overlap_witness :
  Forall inGrid (snake started) /\ NoDup (snake started).
Proof. apply snake_on_board_without_overlap, started_reachable. Defined.

(** The snake of a reachable state has at least its three initial cells and
    at most one cell per cell of the board. *)
Theorem snake_length_bounds (st : GameState) :
  Reachable st ->
  (3 <= List.length (snake st) <= 400)%nat.
Proof.
  intros H. apply Reachable_Board in H. split; [apply H|].
  rewrite <- length_allCells. apply NoDup_incl_length; [apply H|].
  intros c Hc. apply allCells_complete.
  pose proof (bd_snake_grid st H) as Hg. rewrite Forall_forall in Hg. now apply Hg.
Qed.

Lemma snake_length_bounds_witness :
  (3 <= List.length (snake started) <= 400)%nat.
Proof. apply snake_length_bounds, started_reachable. Defined.

(** In a reachable state the food items lie on pairwise distinct cells, none
    of them under the snake. *)
Theorem foods_apart_and_off_snake (st : GameState) :
  Reachable st ->
  NoDup (map foodCell (foods st)) /\
  (forall f, In f (foods st) -> ~ In (foodCell f) (snake st)).
Proof.
  intros H. apply Reachable_Board in H. split; apply H.
Qed.

Lemma foods_apart_and_off_snake_witness :
  NoDup (map foodCell (foods started)) /\
  (forall f, In f (foods started) -> ~ In (foodCell f) (snake started)).
Proof. apply foods_apart_and_off_snake, started_reachable. Defined.

(** In a reachable state the word is a word of the catalog, the word index
    points at one of its letters, and the letters on the board are exactly
    the letters still to be eaten, each as often as it is still due; so the
    letter the snake must eat next is on the board. *)
Theorem board_holds_remaining_letters (st : GameState) :
  Reachable st ->
  In (word st) WORDS /\
  (wordIndex st < String.length (word st))%nat /\
  Permutation (map letter (foods st))
              (skipn (wordIndex st) (lettersOf (word st))) /\
  List.length (foods st) = (String.length (word st) - wordIndex st)%nat /\
  (exists f, In f (foods st) /\
             String.get (wordIndex st) (word st) = Some (letter f)).
Proof.
  intros H. apply Reachable_Board in H.
  pose proof (bd_index st H) as Hi. pose proof (bd_letters st H) as Hl.
  split; [apply H|]. split; [exact Hi|]. split; [exact Hl|]. split.
  - rewrite <- (length_map letter), (Permutation_length Hl), length_skipn,
      length_lettersOf. reflexivity.
  - destruct (String.get (wordIndex st) (word st)) as [c|] eqn:Hget.
    + pose proof (skipn_get _ _ _ Hget) as Hs. rewrite Hs in Hl.
      assert (Hin : In c (map letter (foods st))).
      { eapply Permutation_in; [symmetry; exact Hl|]. now left. }
      apply in_map_iff in Hin. destruct Hin as [f [Hf Hin]].
      exists f. split; [exact Hin | now rewrite Hf].
    + exfalso. clear Hl. revert Hi Hget. generalize (wordIndex st).
      induction (word st) as [|a w IH]; intros n Hn; simpl in *; [lia|].
      destruct n as [|n]; [discriminate|]. apply IH. lia.
Qed.

Lemma board_holds_remaining_letters_witness :
  List.length (foods started) = 8%nat /\
  (exists f, In f (foods started) /\
             String.get (wordIndex started) (word started) = Some (letter f)).
Proof.
  destruct (board_holds_remaining_letters started started_reachable)
    as [_ [_ [_ [Hlen Hex]]]].
  split; [exact Hlen | exact Hex].
Defined.

(** In a reachable state at most one overlay covers the board, and none
    does exactly when the game is Running. *)
Theorem one_overlay_unless_running (st : GameState) :
  Reachable st ->
  (List.length (overlays st) <= 1)%nat /\
  (overlays st = [] <-> running st = true).
Proof.
  intros H. apply Reachable_Board in H.
  pose proof (bd_over st H) as Ho. pose proof (bd_paused st H) as Hp.
  unfold overlays, running.
  destruct (hasStarted st), (gameOver st), (isPaused st); simpl in *;
    try (specialize (Ho eq_refl)); try (specialize (Hp eq_refl));
    try discriminate; split; try lia; split; congruence.
Qed.

Lemma one_overlay_unless_running_witness :
  (List.length (overlays pausedGame) <= 1)%nat /\
  (overlays pausedGame = [] <-> running pausedGame = true).
Proof. apply one_overlay_unless_running, pausedGame_reachable. Defined.

Lemma afterRender_same (st : GameState) : afterRender st st = st.
Proof. unfold afterRender. now rewrite !Z.eqb_refl. Qed.

(** Once the game is over, every event but a click on the reset button
    leaves the whole state as it is and draws nothing. *)
Theorem game_over_is_final_until_reset
    (st : GameState) (ev : Event) (ds : list Q) :
  Reachable st ->
  gameOver st = true ->
  ev <> ResetClick ->
  dispatch ev st ds = Returned st ds.
Proof.
  intros H Hgo Hev. apply Reachable_Board in H.
  pose proof (bd_over st H Hgo) as Hhs.
  assert (Hh : handle ev st ds = Returned st ds).
  { destruct ev; simpl; unfold ret; try congruence.
    - unfold step. now rewrite Hhs, Hgo.
    - unfold handleKeyDown. now rewrite Hhs, Hgo.
    - unfold handleDirectionClick. now rewrite Hhs, Hgo.
    - now rewrite Hhs, Hgo.
    - rewrite Hgo. now rewrite andb_false_r.
    - now rewrite Hhs. }
  unfold dispatch, bind. rewrite Hh. unfold ret. now rewrite afterRender_same.
Qed.

Lemma ticks_reachable (n : nat) :
  forall st ds st' rest,
  Reachable st -> ticks n st ds = Returned st' rest -> Reachable st'.
Proof.
  induction n as [|n IH]; intros st ds st' rest Hst; simpl.
  - unfold ret. intros E. now injection E as <- _.
  - unfold bind. destruct (dispatch Tick st ds) as [st1 ds1| |] eqn:Hd;
      try discriminate.
    apply IH. eapply reach_dispatch; eauto.
Qed.

Lemma crashed_reachable : Reachable crashed.
Proof.
  apply (ticks_reachable 11 started [] crashed []); [apply started_reachable|].
  vm_compute. reflexivity.
Qed.

Lemma game_over_is_final_until_reset_witness :
  dispatch Tick crashed [] = Returned crashed [] /\
  dispatch (KeyDown "ArrowLeft") crashed [] = Returned crashed [] /\
  dispatch StartClick crashed [] = Returned crashed [].
Proof.
  split; [|split];
    apply (game_over_is_final_until_reset crashed _ [] crashed_reachable);
    (reflexivity || discriminate).
Defined.

(** Before the game is started no tick, key or button but the start button
    changes anything; the start button makes the game Running at once. *)
Theorem nothing_moves_before_start
    (st : GameState) (ev : Event) (ds : list Q) :
  Reachable st ->
  hasStarted st = false ->
  (ev <> StartClick -> dispatch ev st ds = Returned st ds) /\
  (exists st',
     dispatch StartClick st ds = Returned st' ds /\
     running st' = true /\
     QuietFrame st st' /\ score st' = score st /\
     direction st' = direction st /\ directionQueue st' = directionQueue st).
Proof.
  intros H Hhs. apply Reachable_Board in H.
  assert (Hgo : gameOver st = false).
  { destruct (gameOver st) eqn:E; [|reflexivity].
    pose proof (bd_over st H E). congruence. }
  assert (Hip : isPaused st = false).
  { destruct (isPaused st) eqn:E; [|reflexivity].
    pose proof (bd_paused st H E). congruence. }
  split.
  - intros Hev.
    assert (Hh : handle ev st ds = Returned st ds).
    { destruct ev; simpl; unfold ret; try congruence.
      - unfold step. now rewrite Hhs.
      - unfold handleKeyDown. now rewrite Hhs.
      - unfold handleDirectionClick. now rewrite Hhs.
      - now rewrite Hhs.
      - now rewrite Hhs, andb_false_r.
      - now rewrite Hgo. }
    unfold dispatch, bind. rewrite Hh. unfold ret. now rewrite afterRender_same.
  - exists (startGame st). unfold dispatch, bind, handle, ret. rewrite Hhs. simpl.
    assert (Hr : afterRender st (startGame st) = startGame st)
      by (unfold afterRender; simpl; now rewrite !Z.eqb_refl).
    rewrite Hr. split; [reflexivity|]. split.
    + unfold running. simpl. now rewrite Hgo, Hip.
    + split; [constructor; simpl; auto | auto].
Qed.

Lemma nothing_moves_before_start_witness :
  dispatch Tick mounted [] = Returned mounted [] /\
  dispatch (KeyDown "ArrowLeft") mounted [] = Returned mounted [] /\
  dispatch (KeyDown " ") mounted [] = Returned mounted [].
Proof.
  split; [|split];
    apply (nothing_moves_before_start mounted _ [] mounted_reachable eq_refl);
    discriminate.
Defined.




(** * The store *)

Lemma increasing_snoc (log : list Z) (hs v : Z) :
  increasing log -> Forall (fun w => w <= hs) log -> hs < v ->
  increasing (log ++ [v]).
Proof.
  intros Hinc Hb Hv. induction log as [|a log IH]; [exact I|].
  inversion Hb as [|? ? Ha Hb']; subst.
  destruct log as [|b log].
  - simpl. split; [lia | exact I].
  - destruct Hinc as [Hab Hinc]. change (a < b /\ increasing ((b :: log) ++ [v])).
    split; [exact Hab | now apply IH].
Qed.

Lemma afterRender_storeLog (prev st : GameState) :
  score prev <= highScore prev ->
  highScore st = highScore prev ->
  setItemCalls st = setItemCalls prev ->
  StoreLog prev -> StoreLog (afterRender prev st).
Proof.
  intros Hle Hhs Hst [Hb Hl Hi].
  destruct (afterRender_store prev st Hle Hhs) as [Elog Emax].
  constructor; rewrite ?Elog, ?Emax, ?Hst.
  - apply Forall_app. split.
    + eapply Forall_impl; [|exact Hb]. simpl. intros; lia.
    + destruct (score st >? highScore prev); constructor; [lia | constructor].
  - destruct (score st >? highScore prev) eqn:E.
    + rewrite last_last. rewrite Z.gtb_ltb in E. apply Z.ltb_lt in E. lia.
    + rewrite app_nil_r. rewrite Z.gtb_ltb in E. apply Z.ltb_ge in E.
      rewrite Z.max_r by exact E. exact Hl.
  - destruct (score st >? highScore prev) eqn:E.
    + rewrite Z.gtb_ltb in E. apply Z.ltb_lt in E. eapply increasing_snoc; eauto.
    + now rewrite app_nil_r.
Qed.

Lemma Reachable_StoreLog (st : GameState) : Reachable st -> StoreLog st.
Proof.
  induction 1 as [saved ds rest st Hm | st st' ev ds rest Hr IH Hd].
  - unfold mount in Hm. destruct (wordAt 0); [|discriminate].
    unfold bind, ret in Hm.
    destruct (generateFoodsForWord _ _ _); try discriminate.
    injection Hm as <- _. unfold highScoreEffect. fields.
    destruct (0 >? match saved with Some v => v | None => 0 end) eqn:E;
      constructor; fields; simpl; auto.
    constructor; [lia | constructor].
  - apply Reachable_Invariant in Hr.
    apply dispatch_handle in Hd. destruct Hd as [st1 [Hh ->]].
    pose proof (handle_facts ev st st1 ds rest Hr Hh) as F.
    apply afterRender_storeLog; try apply F; [apply Hr | exact IH].
Qed.

(** In a reachable state the values written to the store grow strictly,
    none exceeds the high score held in state, and the last one written, if
    any, is that high score. *)
Theorem store_holds_the_high_score (st : GameState) :
  Reachable st ->
  increasing (setItemCalls st) /\
  Forall (fun v => v <= highScore st) (setItemCalls st) /\
  List.last (setItemCalls st) (highScore st) = highScore st.
Proof.
  intros H. apply Reachable_StoreLog in H. destruct H as [Hb Hl Hi]. auto.
Qed.

Lemma store_holds_the_high_score_witness :
  increasing (setItemCalls crashed) /\
  Forall (fun v => v <= highScore crashed) (setItemCalls crashed) /\
  List.last (setItemCalls crashed) (highScore crashed) = highScore crashed.
Proof. apply store_holds_the_high_score, crashed_reachable. Defined.

(** No event lowers the high score, a reset included: after an event it is
    the larger of the score and the high score before the event. *)
Theorem high_score_never_drops
    (st st' : GameState) (ev : Event) (ds rest : list Q) :
  Reachable st ->
  dispatch ev st ds = Returned st' rest ->
  highScore st' = Z.max (score st') (highScore st) /\
  highScore st <= highScore st' /\
  score st' <= highScore st'.
Proof.
  intros Hr Hd. apply Reachable_Invariant in Hr.
  apply dispatch_handle in Hd. destruct Hd as [st1 [Hh ->]].
  pose proof (handle_facts ev st st1 ds rest Hr Hh) as F.
  destruct (afterRender_store st st1 (inv_high st Hr) (hf_highScore _ _ _ F))
    as [_ Emax].
  destruct (afterRender_frame st st1) as [_ [_ [_ [_ [_ [_ [_ [Esc _]]]]]]]].
  rewrite Esc, Emax. lia.
Qed.

Lemma high_score_never_drops_witness :
  exists st',
    dispatch Tick started [] = Returned st' [] /\
    highScore started = 0 /\ highScore st' = 10.
Proof.
  eexists. split; [reflexivity|]. split; [reflexivity|].
  destruct (high_score_never_drops started _ Tick [] [] started_reachable eq_refl)
    as [H _].
  exact H.
Defined.

(** * Reset and mount *)

Lemma afterRender_settled (prev st : GameState) :
  score st <= highScore st -> afterRender prev st = st.
Proof.
  intros H. unfold afterRender, highScoreEffect.
  destruct ((score st =? score prev) && (highScore st =? highScore prev));
    [reflexivity|].
  destruct (score st >? highScore st) eqn:E; [|reflexivity].
  rewrite Z.gtb_ltb in E. apply Z.ltb_lt in E. lia.
Qed.

(** A draw of [Math.random()] always picks a word of the catalog. *)
Lemma wordAt_unit (q : Q) :
  unitDraw q = true ->
  exists w, wordAt (floorTimes q (Z.of_nat (List.length WORDS))) = Some w.
Proof.
  intros Hq.
  pose proof (floorTimes_range q (Z.of_nat (List.length WORDS)) Hq eq_refl) as Hidx.
  destruct (wordAt (floorTimes q (Z.of_nat (List.length WORDS)))) as [w|] eqn:Hw;
    [now exists w|].
  exfalso. unfold wordAt in Hw.
  destruct (floorTimes q (Z.of_nat (List.length WORDS)) <? 0) eqn:Hneg;
    [apply Z.ltb_lt in Hneg; lia|].
  apply nth_error_None in Hw. lia.
Qed.

Lemma WORDS_short (w : string) : In w WORDS -> (String.length w <= 11)%nat.
Proof.
  assert (H : forallb (fun v => (String.length v <=? 11)%nat) WORDS = true) by reflexivity.
  rewrite forallb_forall in H. intros Hin. apply Nat.leb_le. now apply H.
Qed.

(** From GameOver a click on the reset button, given a draw for the word
    and draws that hold eleven distinct free cells, returns a game that is
    Running at once: initial snake and direction, empty queue, score 0,
    delay 150, a word of the catalog at index 0 with the foods the generator
    placed for it around the initial snake; the high score and the store are
    kept. *)
Theorem reset_starts_a_running_game (st : GameState) (q : Q) (ds : list Q) :
  Reachable st ->
  gameOver st = true ->
  unitDraw q = true ->
  (11 <= List.length (freshCandidates INITIAL_SNAKE ds))%nat ->
  exists st' rest,
    dispatch ResetClick st (q :: ds) = Returned st' rest /\
    running st' = true /\
    snake st' = INITIAL_SNAKE /\
    direction st' = INITIAL_DIRECTION /\
    directionQueue st' = [] /\
    score st' = 0 /\
    speed st' = BASE_SPEED /\
    wordIndex st' = 0%nat /\
    wordAt (floorTimes q (Z.of_nat (List.length WORDS))) = Some (word st') /\
    generateFoodsForWord (word st') INITIAL_SNAKE ds = Returned (foods st') rest /\
    highScore st' = highScore st /\
    setItemCalls st' = setItemCalls st.
Proof.
  intros Hr Hgo Hq Hfresh.
  pose proof (Reachable_Invariant st Hr) as Hinv.
  pose proof (Reachable_Board st Hr) as Hb.
  destruct (wordAt_unit q Hq) as [w Hw].
  assert (Hlen : (String.length w <= List.length (freshCandidates INITIAL_SNAKE ds))%nat).
  { pose proof (WORDS_short w (wordAt_In _ _ Hw)). lia. }
  destruct (placeLetters_returns w 0 [] INITIAL_SNAKE ds Hlen) as [fs [rest Hgen]].
  fold (generateFoodsForWord w INITIAL_SNAKE ds) in Hgen.
  eexists. exists rest. split.
  - unfold dispatch, bind, handle. rewrite Hgo.
    unfold resetGame, bind, randomWord, bind, random, ret. rewrite Hw, Hgen.
    rewrite afterRender_settled; [reflexivity|].
    fields. pose proof (inv_high st Hinv). pose proof (inv_score_nonneg st Hinv). lia.
  - unfold running. fields. rewrite (bd_over st Hb Hgo).
    repeat split; assumption.
Qed.

Lemma reset_starts_a_running_game_witness :
  exists st' rest,
    dispatch ResetClick crashed ((3#5)%Q :: drawsRow) = Returned st' rest /\
    running st' = true /\
    score st' = 0 /\
    word st' = "WEB"%string /\
    highScore st' = 10.
Proof.
  destruct (reset_starts_a_running_game crashed (3#5)%Q drawsRow crashed_reachable
              eq_refl eq_refl)
    as [st' [rest [Hd [Hrun [_ [_ [_ [Hsc [_ [_ [Hw [_ [Hhs _]]]]]]]]]]]]].
  - vm_compute. lia.
  - exists st', rest. split; [exact Hd|]. split; [exact Hrun|]. split; [exact Hsc|].
    split; [|exact Hhs].
    assert (Hweb : wordAt (floorTimes (3#5)%Q (Z.of_nat (List.length WORDS)))
                   = Some "WEB"%string) by (vm_compute; reflexivity).
    rewrite Hweb in Hw. injection Hw as Hw. symmetry. exact Hw.
Defined.

(** The board of a freshly mounted component. *)
Lemma mount_fields (saved : option Z) (ds rest : list Q) (st : GameState) :
  mount saved ds = Returned st rest ->
  generateFoodsForWord "SERPENTE" INITIAL_SNAKE ds = Returned (foods st) rest /\
  snake st = INITIAL_SNAKE /\ score st = 0 /\ speed st = BASE_SPEED.
Proof.
  unfold mount. change (wordAt 0) with (Some "SERPENTE"%string).
  unfold bind, ret.
  destruct (generateFoodsForWord "SERPENTE" INITIAL_SNAKE ds) as [foods0 rest0| |];
    try discriminate.
  intros E. injection E as <- <-. unfold highScoreEffect. fields.
  destruct (0 >? match saved with Some v => v | None => 0 end); fields;
    repeat split.
Qed.

(** Mounting the component, whatever is in the store: the game waits to be
    started with the first word of the catalog at index 0, the foods the
    generator placed for it, the initial snake and direction, an empty
    queue, score 0 and delay 150.  The high score is the stored value, and a
    stored value below 0 is replaced by 0 and written back at once. *)
Theorem mount_waits_with_first_word
    (saved : option Z) (ds rest : list Q) (st : GameState) :
  mount saved ds = Returned st rest ->
  hasStarted st = false /\ gameOver st = false /\ isPaused st = false /\
  word st = "SERPENTE"%string /\ wordIndex st = 0%nat /\
  generateFoodsForWord "SERPENTE" INITIAL_SNAKE ds = Returned (foods st) rest /\
  snake st = INITIAL_SNAKE /\ direction st = INITIAL_DIRECTION /\
  directionQueue st = [] /\ score st = 0 /\ speed st = BASE_SPEED /\
  highScore st = Z.max 0 (match saved with Some v => v | None => 0 end) /\
  setItemCalls st
    = (if match saved with Some v => v | None => 0 end <? 0 then [0] else []).
Proof.
  unfold mount. change (wordAt 0) with (Some "SERPENTE"%string).
  unfold bind, ret.
  destruct (generateFoodsForWord "SERPENTE" INITIAL_SNAKE ds) as [foods0 rest0| |];
    try discriminate.
  intros E. injection E as <- <-. unfold highScoreEffect. fields.
  rewrite Z.gtb_ltb.
  destruct (match saved with Some v => v | None => 0 end <? 0) eqn:Hs; fields.
  - apply Z.ltb_lt in Hs. repeat split; lia.
  - apply Z.ltb_ge in Hs. repeat split; lia.
Qed.

Lemma mount_waits_with_first_word_witness :
  word mounted = "SERPENTE"%string /\ hasStarted mounted = false /\
  highScore mounted = 0 /\ setItemCalls mounted = [].
Proof.
  destruct (mount_waits_with_first_word None drawsMount [] mounted eq_refl)
    as [H1 [_ [_ [H2 [_ [_ [_ [_ [_ [_ [_ [H3 H4]]]]]]]]]]]].
  repeat split; assumption.
Defined.

(** * More about one tick *)

(** In a reachable state, with draws as [Math.random()] gives them, the tick
    callback raises no error; and unless the last letter of the word is due
    it returns whatever the supply, without drawing from it. *)
Theorem tick_never_throws (st : GameState) (ds : list Q) :
  Reachable st ->
  unitDraws ds = true ->
  step st ds <> Thrown /\
  ((S (wordIndex st) < String.length (word st))%nat ->
   exists st', step st ds = Returned st' ds).
Proof.
  intros Hr Hu. apply Reachable_Invariant in Hr.
  pose proof (inv_snake st Hr) as Hsn.
  unfold step. rewrite guard_running.
  destruct (running st); cbn [negb]; [|split; [discriminate | intros _; now exists st]].
  destruct (takeDirection st) as [d st1].
  destruct (snake st) as [|head body]; [congruence|].
  destruct (hitsWall (advance head d));
    [split; [discriminate | intros _; eexists; reflexivity]|].
  destruct (hitsSelf (head :: body) (advance head d));
    [split; [discriminate | intros _; eexists; reflexivity]|].
  destruct (findIndex (onFood (advance head d)) (foods st)) as [i|] eqn:Hfi;
    [|split; [discriminate | intros _; eexists; reflexivity]].
  destruct (findIndex_in_range _ _ _ Hfi) as [f Hnth]. rewrite Hnth.
  destruct (letterMatches f (word st) (wordIndex st));
    [|split; [discriminate | intros _; eexists; reflexivity]].
  destruct (String.length (word st) <=? S (wordIndex st))%nat eqn:Hlen;
    [|split; [discriminate | intros _; eexists; reflexivity]].
  apply Nat.leb_le in Hlen. split; [|intros Hlt; lia].
  unfold bind, randomWord, bind, random, ret.
  destruct ds as [|q ds]; [discriminate|].
  simpl in Hu. apply andb_true_iff in Hu. destruct Hu as [Hq _].
  destruct (wordAt_unit q Hq) as [w Hw]. rewrite Hw.
  destruct (generateFoodsForWord w (advance head d :: head :: body) ds)
    as [fs rest| |] eqn:Hgen; try discriminate.
  exfalso. revert Hgen. apply placeLetters_never_throws.
Qed.

Lemma tick_never_throws_witness :
  step started [] <> Thrown /\ exists st', step started [] = Returned st' [].
Proof.
  destruct (tick_never_throws started [] started_reachable eq_refl) as [H1 H2].
  split; [exact H1|]. apply H2. vm_compute. lia.
Defined.

Section EatingTick.

Variable st : GameState.
Variables (head : Cell) (body : list Cell).
Hypothesis Hrunning : running st = true.
Hypothesis Hsnake : snake st = head :: body.

Let newHead : Cell := advance head (nextDirection st).

(** While Running, when the new head lands on a food item whose letter is
    [word[wordIndex]] and further letters are due, the tick returns without
    drawing: 10 is added to the score, the word index moves on by one, the
    snake grows by the new head, that one food item leaves the board, and
    word, delay and phase stay. *)
Theorem step_eats_letter (ds : list Q) (f : Food) :
  inGrid newHead ->
  ~ In newHead (snake st) ->
  find (onFood newHead) (foods st) = Some f ->
  String.get (wordIndex st) (word st) = Some (letter f) ->
  (S (wordIndex st) < String.length (word st))%nat ->
  exists st',
    step st ds = Returned st' ds /\
    score st' = score st + 10 /\
    wordIndex st' = S (wordIndex st) /\
    snake st' = newHead :: snake st /\
    Permutation (foods st) (f :: foods st') /\
    word st' = word st /\
    speed st' = speed st /\
    running st' = true /\
    direction st' = nextDirection st /\
    directionQueue st' = tl (directionQueue st).
Proof.
  intros Hg Hn Hfind Hletter Hmore.
  pose proof (findIndex_find (onFood newHead) (foods st)) as Hfi.
  rewrite Hfind in Hfi. destruct Hfi as [i [Hi Hnth]].
  pose proof (takeDirection_only_direction st) as Hd.
  destruct Hd as [Hdir [Hq [Hhs [_ [Hw [_ [_ [Hsc [_ [Hip [Hsp _]]]]]]]]]]].
  pose proof (takeDirection_gameOver st) as Hgo.
  eexists. split.
  - apply Ticks_step. eapply tick_eat; eauto.
    + now apply no_collision.
    + now apply letterMatches_true.
  - fields. rewrite Hsc, Hw, Hsp, Hdir, Hq.
    unfold running. fields. rewrite Hhs, Hgo, Hip.
    repeat split; try assumption. now apply splice1_Permutation.
Qed.

End EatingTick.

Lemma step_eats_letter_witness :
  exists st',
    step (scenario "A") [] = Returned st' [] /\
    score st' = 10 /\
    wordIndex st' = 1%nat /\
    List.length (snake st') = 4%nat /\
    foods st' = [ {| id := foodId 1 5 5; fx := 5; fy := 5; letter := "B" |} ].
Proof.
  destruct (step_eats_letter (scenario "A") {| x := 10; y := 10 |}
              [ {| x := 10; y := 11 |}; {| x := 10; y := 12 |} ] eq_refl eq_refl []
              {| id := foodId 0 10 9; fx := 10; fy := 9; letter := "A" |})
    as [st' [Hstep [Hsc [Hwi [Hsn _]]]]].
  - unfold inGrid, GRID_SIZE. simpl. lia.
  - simpl. intros [E | [E | [E | []]]]; discriminate E.
  - reflexivity.
  - reflexivity.
  - simpl. lia.
  - exists st'. split; [exact Hstep|]. split; [exact Hsc|]. split; [exact Hwi|].
    assert (E : step (scenario "A") [] =
                Returned
                  (setSnake ({| x := 10; y := 9 |} :: snake (scenario "A"))
                     (setFoods [ {| id := foodId 1 5 5; fx := 5; fy := 5; letter := "B" |} ]
                        (setWordIndex 1
                           (setScore (fun s => s + 10) (scenario "A"))))) [])
      by reflexivity.
    rewrite E in Hstep. injection Hstep as <-. split; reflexivity.
Defined.

(** * Keys, buttons and the pause toggle *)

(** In a reachable state that is not paused, an on-screen direction button
    does exactly what the arrow key of its direction does. *)
Theorem buttons_act_as_arrow_keys (st : GameState) (b : DirectionButton) :
  Reachable st ->
  isPaused st = false ->
  handleDirectionClick (buttonDir b) st = handleKeyDown (arrowKey b) st.
Proof.
  intros Hr Hip. apply Reachable_Invariant in Hr.
  pose proof (lastDir_unit st Hr) as Hu.
  unfold handleDirectionClick, handleKeyDown, pushIfNew. rewrite Hip.
  destruct (hasStarted st); [|reflexivity].
  destruct (gameOver st); [reflexivity|]. cbn [negb orb].
  destruct (unitDir_cases _ Hu) as [E | [E | [E | E]]]; rewrite !E;
    destruct b; reflexivity.
Qed.

Lemma buttons_act_as_arrow_keys_witness :
  handleDirectionClick (buttonDir ChevronLeft) started
    = handleKeyDown "ArrowLeft" started /\
  directionQueue (handleDirectionClick (buttonDir ChevronLeft) started)
    = [ {| x := -1; y := 0 |} ].
Proof.
  split; [|reflexivity].
  apply (buttons_act_as_arrow_keys started ChevronLeft started_reachable eq_refl).
Defined.

Lemma setIsPaused_twice (st : GameState) :
  setIsPaused negb (setIsPaused negb st) = st.
Proof. destruct st. unfold setIsPaused. simpl. now rewrite negb_involutive. Qed.

Lemma afterRender_setIsPaused (st : GameState) (f : bool -> bool) :
  afterRender st (setIsPaused f st) = setIsPaused f st.
Proof. unfold afterRender. simpl. now rewrite !Z.eqb_refl. Qed.

(** Once started and until the game is over, the space bar, Escape and the
    pause button each flip the pause flag and nothing else, so that a second
    press gives back the very state from before the first. *)
Theorem pause_toggle_twice_is_identity
    (st : GameState) (ev : Event) (ds : list Q) :
  hasStarted st = true ->
  gameOver st = false ->
  ev = KeyDown " " \/ ev = KeyDown "Escape" \/ ev = PauseClick ->
  dispatch ev st ds = Returned (setIsPaused negb st) ds /\
  isPaused (setIsPaused negb st) = negb (isPaused st) /\
  dispatch ev (setIsPaused negb st) ds = Returned st ds.
Proof.
  intros Hhs Hgo Hev.
  assert (Hflip : forall s, setIsPaused (fun _ => negb (isPaused s)) s = setIsPaused negb s)
    by reflexivity.
  assert (H : forall s, hasStarted s = true -> gameOver s = false ->
                        dispatch ev s ds = Returned (setIsPaused negb s) ds).
  { intros s Hs Hg. unfold dispatch, bind, ret.
    destruct Hev as [-> | [-> | ->]]; simpl.
    - unfold handleKeyDown. rewrite Hs, Hg. simpl. now rewrite afterRender_setIsPaused.
    - unfold handleKeyDown. rewrite Hs, Hg. simpl. now rewrite afterRender_setIsPaused.
    - rewrite Hs, Hg. simpl. rewrite Hflip. now rewrite afterRender_setIsPaused. }
  split; [now apply H|]. split; [reflexivity|].
  rewrite H by assumption. now rewrite setIsPaused_twice.
Qed.

Lemma pause_toggle_twice_is_identity_witness :
  dispatch (KeyDown " ") started [] = Returned pausedGame [] /\
  dispatch (KeyDown " ") pausedGame [] = Returned started [].
Proof.
  destruct (pause_toggle_twice_is_identity started (KeyDown " ") [] eq_refl eq_refl)
    as [H1 [_ H2]].
  - left. reflexivity.
  - split; [exact H1 | exact H2].
Defined.

(** * The snake is a path *)

Lemma connected_removelast (cells : list Cell) :
  connected cells -> connected (removelast cells).
Proof.
  induction cells as [|a cells IH]; [auto|].
  destruct cells as [|b cells]; [auto|].
  rewrite removelast_cons2. intros [Hab Hc].
  destruct cells as [|c cells]; [exact I|].
  rewrite removelast_cons2. split; [exact Hab|].
  rewrite <- removelast_cons2. now apply IH.
Qed.

Lemma connected_advance (head d : Cell) (body : list Cell) :
  unitDir d = true -> connected (head :: body) ->
  connected (advance head d :: head :: body).
Proof.
  intros Hd Hc. split; [|exact Hc].
  unfold advance. simpl.
  replace (x head + x d - x head) with (x d) by lia.
  replace (y head + y d - y head) with (y d) by lia.
  now destruct d.
Qed.

Lemma Ticks_connected (st st' : GameState) (ds rest : list Q) :
  Invariant st -> connected (snake st) -> Ticks st ds st' rest ->
  connected (snake st').
Proof.
  intros Hinv Hc HT.
  destruct (nextDirection_facts st Hinv) as [Hu _].
  pose proof (takeDirection_only_direction st) as Hd.
  destruct Hd as [_ [_ [_ [Hsn _]]]].
  destruct HT as
    [ ds Hr
    | ds head body Hr Hs Hc'
    | ds head body Hr Hs Hc' Hfi
    | ds head body i f Hr Hs Hc' Hfi Hnth Hlm
    | ds head body i f Hr Hs Hc' Hfi Hnth Hlm Hlen
    | q ds rest head body i f nextWord newFoods Hr Hs Hc' Hfi Hnth Hlm Hlen Hw0 Hgen ];
    fields; rewrite ?Hsn; try assumption.
  - apply connected_removelast. rewrite Hs in *. now apply connected_advance.
  - rewrite Hs in *. now apply connected_advance.
  - rewrite Hs in *. now apply connected_advance.
Qed.

(** The snake of a reachable state is a path: every cell lies one unit step
    ahead of the cell behind it. *)
Theorem snake_is_a_path (st : GameState) :
  Reachable st -> connected (snake st).
Proof.
  induction 1 as [saved ds rest st Hm | st st' ev ds rest Hr IH Hd].
  - apply mount_fields in Hm.
    destruct Hm as [_ [Hs _]]. rewrite Hs.
    simpl. auto.
  - pose proof (Reachable_Invariant st Hr) as Hinv.
    pose proof (Reachable_Board st Hr) as Hb.
    apply dispatch_handle in Hd. destruct Hd as [st1 [Hh ->]].
    destruct (afterRender_frame st st1) as [_ [Es _]]. rewrite Es.
    assert (Hquiet : ev <> Tick -> ev <> ResetClick -> connected (snake st1)).
    { intros Hnt Hnr. apply handle_quiet_frame in Hh; try congruence.
      destruct Hh as [[E _ _ _ _ _ _ _] _]. now rewrite E. }
    destruct ev; try (apply Hquiet; discriminate).
    + apply step_Ticks in Hh. eapply Ticks_connected; eauto.
    + simpl in Hh. destruct (gameOver st) eqn:Hgo.
      * unfold resetGame, bind, randomWord, bind, random, ret in Hh.
        destruct ds as [|q ds]; [discriminate|].
        destruct (wordAt _); [|discriminate].
        destruct (generateFoodsForWord _ _ _); try discriminate.
        injection Hh as <- _. fields. simpl. auto.
      * unfold ret in Hh. injection Hh as <- _. exact IH.
Qed.

Lemma snake_is_a_path_witness : connected (snake crashed).
Proof. apply snake_is_a_path, crashed_reachable. Defined.

(** * Identities of the food items *)

Lemma dashless_digits (d : Decimal.uint) :
  dashless (NilEmpty.string_of_uint d) = true.
Proof. induction d; simpl; auto. Qed.

Lemma dashless_index (i : nat) :
  dashless (NilZero.string_of_uint (Nat.to_uint i)) = true.
Proof.
  unfold NilZero.string_of_uint.
  destruct (Nat.to_uint i); try apply dashless_digits. reflexivity.
Qed.

(** Two strings that agree after a dashless prefix and a dash have the same
    prefix. *)
Lemma prefix_before_dash (s1 : string) :
  forall s2 r1 r2,
  dashless s1 = true -> dashless s2 = true ->
  (s1 ++ String "-" r1)%string = (s2 ++ String "-" r2)%string ->
  s1 = s2.
Proof.
  induction s1 as [|c s1 IH]; intros [|c2 s2] r1 r2 H1 H2 E; simpl in *.
  - reflexivity.
  - injection E as <- _. simpl in H2. discriminate.
  - injection E as -> _. simpl in H1. discriminate.
  - injection E as <- E.
    apply andb_true_iff in H1. destruct H1 as [_ H1].
    apply andb_true_iff in H2. destruct H2 as [_ H2].
    f_equal. eapply IH; eauto.
Qed.

Lemma to_uint_nonnil (i : nat) : Nat.to_uint i <> Decimal.Nil.
Proof.
  rewrite <- (DecimalNat.Unsigned.of_to i) at 1.
  rewrite DecimalNat.Unsigned.to_of. apply DecimalFacts.unorm_nonnil.
Qed.

(** The identity of a food item tells its index. *)
Lemma foodId_index (i j : nat) (px py qx qy : Z) :
  foodId i px py = foodId j qx qy -> i = j.
Proof.
  unfold foodId. intros E.
  apply prefix_before_dash in E; try apply dashless_index.
  apply DecimalNat.Unsigned.to_uint_inj.
  assert (H : NilZero.uint_of_string (NilZero.string_of_uint (Nat.to_uint i))
              = NilZero.uint_of_string (NilZero.string_of_uint (Nat.to_uint j)))
    by (now rewrite E).
  rewrite !NilZero.usu in H by apply to_uint_nonnil.
  now injection H.
Qed.

(** The food items the generator returns carry pairwise distinct
    identities. *)
Theorem generated_ids_are_distinct
    (W : string) (occupied : list Cell) (ds rest : list Q) (fs : list Food) :
  generateFoodsForWord W occupied ds = Returned fs rest ->
  NoDup (map id fs).
Proof.
  intros Hgen. unfold generateFoodsForWord in Hgen.
  apply placeLetters_spec in Hgen.
  destruct Hgen as [added [Hfs [_ [_ [_ [_ Hidx]]]]]]. simpl in Hfs. subst added.
  apply NoDup_nth_error. intros i j Hi E.
  rewrite length_map in Hi. rewrite !nth_error_map in E.
  destruct (nth_error fs i) as [f|] eqn:Hf.
  2:{ apply nth_error_None in Hf. lia. }
  destruct (nth_error fs j) as [g|] eqn:Hg; [|discriminate].
  simpl in E. injection E as E.
  destruct (Hidx i f Hf) as [Hidf _]. destruct (Hidx j g Hg) as [Hidg _].
  rewrite Hidf, Hidg in E. simpl in E. now apply foodId_index in E.
Qed.

Lemma generated_ids_are_distinct_witness :
  NoDup (map id (foods mounted)).
Proof.
  apply (generated_ids_are_distinct "SERPENTE" INITIAL_SNAKE drawsMount []).
  reflexivity.
Defined.

(** * Directions of reachable states *)

(** In a reachable state the committed direction and every queued direction
    is one of the four unit vectors. *)
Theorem directions_are_unit_vectors (st : GameState) :
  Reachable st ->
  unitDir (direction st) = true /\
  Forall (fun d => unitDir d = true) (directionQueue st).
Proof.
  intros H. apply Reachable_Invariant in H. split; [apply H|].
  apply Forall_forall. apply forallb_forall. apply H.
Qed.

Lemma directions_are_unit_vectors_witness :
  unitDir (direction (handleKeyDown "ArrowLeft" pausedGame)) = true /\
  Forall (fun d => unitDir d = true)
         (directionQueue (handleKeyDown "ArrowLeft" pausedGame)).
Proof.
  apply directions_are_unit_vectors.
  apply (reach_dispatch pausedGame _ (KeyDown "ArrowLeft") [] []);
    [apply pausedGame_reachable | reflexivity].
Defined.

(** * Foods on the board *)

Lemma ReachableFair_Reachable (st : GameState) : ReachableFair st -> Reachable st.
Proof.
  induction 1 as [saved ds rest st _ Hm | st st' ev ds rest _ IH _ Hd].
  - eapply reach_mount; eauto.
  - eapply reach_dispatch; eauto.
Qed.

Lemma generated_foods_inGrid (W : string) (occupied : list Cell)
    (ds rest : list Q) (fs : list Food) :
  unitDraws ds = true ->
  generateFoodsForWord W occupied ds = Returned fs rest ->
  Forall inGrid (map foodCell fs).
Proof.
  intros Hu Hgen. unfold generateFoodsForWord in Hgen.
  apply placeLetters_spec in Hgen.
  destruct Hgen as [added [Hfs [_ [_ [_ [Hcand _]]]]]]. simpl in Hfs. subst added.
  pose proof (candidates_inGrid ds Hu) as Hall. rewrite Forall_forall in Hall.
  apply Forall_forall. intros c Hc. apply in_map_iff in Hc.
  destruct Hc as [f [<- Hf]]. apply Hall, Hcand, Hf.
Qed.

Lemma unitDraws_tail (q : Q) (ds : list Q) :
  unitDraws (q :: ds) = true -> unitDraws ds = true.
Proof. simpl. intros H. apply andb_true_iff in H. apply H. Qed.

Lemma Ticks_foods_inGrid (st st' : GameState) (ds rest : list Q) :
  unitDraws ds = true ->
  Forall inGrid (map foodCell (foods st)) ->
  Ticks st ds st' rest ->
  Forall inGrid (map foodCell (foods st')).
Proof.
  intros Hu Hf HT.
  pose proof (takeDirection_only_direction st) as Hd.
  destruct Hd as [_ [_ [_ [_ [_ [_ [Hfd _]]]]]]].
  destruct HT as
    [ ds Hr
    | ds head body Hr Hs Hc
    | ds head body Hr Hs Hc Hfi
    | ds head body i f Hr Hs Hc Hfi Hnth Hlm
    | ds head body i f Hr Hs Hc Hfi Hnth Hlm Hlen
    | q ds rest head body i f nextWord newFoods Hr Hs Hc Hfi Hnth Hlm Hlen Hw0 Hgen ];
    fields; rewrite ?Hfd; try assumption.
  - pose proof (splice1_Permutation (foods st) i f Hnth) as Hperm.
    apply (Permutation_map foodCell) in Hperm.
    rewrite Forall_forall in *. intros c Hin. apply Hf.
    eapply Permutation_in; [symmetry; exact Hperm|]. now right.
  - eapply generated_foods_inGrid; [|exact Hgen]. eapply unitDraws_tail; eauto.
Qed.

Lemma ReachableFair_foods_inGrid (st : GameState) :
  ReachableFair st -> Forall inGrid (map foodCell (foods st)).
Proof.
  induction 1 as [saved ds rest st Hu Hm | st st' ev ds rest _ IH Hu Hd].
  - apply mount_fields in Hm.
    destruct Hm as [Hgen _].
    eapply generated_foods_inGrid; eauto.
  - apply dispatch_handle in Hd. destruct Hd as [st1 [Hh ->]].
    destruct (afterRender_frame st st1) as [_ [_ [_ [_ [_ [_ [Ef _]]]]]]]. rewrite Ef.
    destruct ev.
    + apply step_Ticks in Hh. eapply Ticks_foods_inGrid; eauto.
    + apply handle_quiet_frame in Hh; try congruence.
      destruct Hh as [[_ E _ _ _ _ _ _] _]. now rewrite E.
    + apply handle_quiet_frame in Hh; try congruence.
      destruct Hh as [[_ E _ _ _ _ _ _] _]. now rewrite E.
    + apply handle_quiet_frame in Hh; try congruence.
      destruct Hh as [[_ E _ _ _ _ _ _] _]. now rewrite E.
    + apply handle_quiet_frame in Hh; try congruence.
      destruct Hh as [[_ E _ _ _ _ _ _] _]. now rewrite E.
    + apply handle_quiet_frame in Hh; try congruence.
      destruct Hh as [[_ E _ _ _ _ _ _] _]. now rewrite E.
    + simpl in Hh. destruct (gameOver st) eqn:Hgo.
      * unfold resetGame, bind, randomWord, bind, random, ret in Hh.
        destruct ds as [|q ds]; [discriminate|].
        destruct (wordAt _); [|discriminate].
        destruct (generateFoodsForWord _ _ _) as [fs r| |] eqn:Hgen; try discriminate.
        injection Hh as <- _. fields.
        eapply generated_foods_inGrid; [|exact Hgen]. eapply unitDraws_tail; eauto.
      * unfold ret in Hh. injection Hh as <- _. exact IH.
Qed.

(** When every draw is one that [Math.random()] can give, the food items of
    a reachable state all lie on the board; with the snake they take up
    distinct cells, so there are never more of both than the board has
    cells. *)
Theorem foods_stay_on_board (st : GameState) :
  ReachableFair st ->
  Forall inGrid (map foodCell (foods st)) /\
  NoDup (map foodCell (foods st) ++ snake st) /\
  (List.length (foods st) + List.length (snake st) <= 400)%nat.
Proof.
  intros Hf. pose proof (ReachableFair_foods_inGrid st Hf) as Hg.
  apply ReachableFair_Reachable, Reachable_Board in Hf.
  assert (Hnd : NoDup (map foodCell (foods st) ++ snake st)).
  { apply NoDup_app; [apply Hf | apply Hf |].
    intros c Hc. apply in_map_iff in Hc. destruct Hc as [f [<- Hin]].
    now apply (bd_foods_off st Hf). }
  split; [exact Hg|]. split; [exact Hnd|].
  rewrite <- (length_map foodCell), <- length_app, <- length_allCells.
  apply NoDup_incl_length; [exact Hnd|].
  intros c Hc. apply allCells_complete. apply in_app_or in Hc.
  destruct Hc as [Hc | Hc].
  - rewrite Forall_forall in Hg. now apply Hg.
  - pose proof (bd_snake_grid st Hf) as Hs. rewrite Forall_forall in Hs. now apply Hs.
Qed.

Lemma started_fair : ReachableFair started.
Proof.
  apply (fair_dispatch mounted started StartClick [] []); [|reflexivity|reflexivity].
  apply (fair_mount None drawsMount []); reflexivity.
Qed.

Lemma foods_stay_on_board_witness :
  Forall inGrid (map foodCell (foods started)) /\
  NoDup (map foodCell (foods started) ++ snake started) /\
  (List.length (foods started) + List.length (snake started) <= 400)%nat.
Proof. apply foods_stay_on_board, started_fair. Defined.

(** * A board too full for the next word *)

Lemma play_fair (script : list (Event * list Q)) :
  forall st st',
  ReachableFair st ->
  forallb (fun p => unitDraws (snd p)) script = true ->
  play script st = Some st' -> ReachableFair st'.
Proof.
  induction script as [|[ev ds] script IH]; intros st st' Hst Hu; simpl.
  - intros E. now injection E as <-.
  - simpl in Hu. apply andb_true_iff in Hu. destruct Hu as [Hds Hu].
    destruct (dispatch ev st ds) as [st1 rest| |] eqn:Hd; try discriminate.
    apply IH; [|exact Hu]. eapply fair_dispatch; eauto.
Qed.

Lemma nearlyFull_fair : ReachableFair nearlyFull.
Proof.
  assert (H : exists st0,
             mount None drawsAhead = Returned st0 [] /\
             play fillScript st0 = Some nearlyFull).
  { eexists. split; [reflexivity | vm_compute; reflexivity]. }
  destruct H as [st0 [Hm Hp]].
  apply (play_fair fillScript st0 nearlyFull); [| vm_compute; reflexivity | exact Hp].
  apply (fair_mount None drawsAhead [] st0); [vm_compute; reflexivity | exact Hm].
Qed.

(** The free cells among the candidates and the occupied cells share the
    board. *)
Lemma freshCandidates_room (occupied : list Cell) (ds : list Q) :
  unitDraws ds = true -> NoDup occupied -> Forall inGrid occupied ->
  (List.length (freshCandidates occupied ds) + List.length occupied <= 400)%nat.
Proof.
  intros Hu Hnd Hg.
  rewrite <- length_app, <- length_allCells.
  apply NoDup_incl_length.
  - apply NoDup_app; [apply NoDup_nodup | exact Hnd |].
    intros c Hc. apply nodup_In, filter_In in Hc. destruct Hc as [_ Hfree].
    unfold freeIn in Hfree. apply negb_true_iff in Hfree. now apply isOccupied_false.
  - intros c Hc. apply allCells_complete. apply in_app_or in Hc.
    destruct Hc as [Hc | Hc].
    + apply nodup_In, filter_In in Hc. destruct Hc as [Hc _].
      pose proof (candidates_inGrid ds Hu) as Hall.
      rewrite Forall_forall in Hall. now apply Hall.
    + rewrite Forall_forall in Hg. now apply Hg.
Qed.

Lemma WORDS_three_letters (w : string) : In w WORDS -> (3 <= String.length w)%nat.
Proof.
  assert (H : forallb (fun v => (3 <=? String.length v)%nat) WORDS = true) by reflexivity.
  rewrite forallb_forall in H. intros Hin. apply Nat.leb_le. now apply H.
Qed.

(** C1 fails as stated: the game [nearlyFull], reached from mount by a start
    and 394 ticks with draws that [Math.random()] can give, is Running with
    the last letter of its word right below the head; yet whatever the
    draws, the tick that eats it never returns, for the board has room for
    two more letters and no word of the catalog is that short. *)
Lemma word_completion_hangs_on_full_board :
  ReachableFair nearlyFull /\
  running nearlyFull = true /\
  hd_error (snake nearlyFull) = Some {| x := 9; y := 9 |} /\
  nextDirection nearlyFull = {| x := 0; y := 1 |} /\
  inGrid {| x := 9; y := 10 |} /\
  ~ In {| x := 9; y := 10 |} (snake nearlyFull) /\
  find (onFood {| x := 9; y := 10 |}) (foods nearlyFull)
    = Some {| id := foodId 2 9 10; fx := 9; fy := 10; letter := "B" |} /\
  String.get (wordIndex nearlyFull) (word nearlyFull) = Some "B"%char /\
  S (wordIndex nearlyFull) = String.length (word nearlyFull) /\
  (forall ds, unitDraws ds = true -> step nearlyFull ds = Spinning).
Proof.
  assert (Hnot : ~ In {| x := 9; y := 10 |} (snake nearlyFull)).
  { intros Hin. apply hitsSelf_true in Hin. vm_compute in Hin. discriminate Hin. }
  assert (Hgrid : inGrid {| x := 9; y := 10 |})
    by (unfold inGrid, GRID_SIZE; simpl; lia).
  split; [exact nearlyFull_fair|]. split; [reflexivity|]. split; [reflexivity|].
  split; [reflexivity|]. split; [exact Hgrid|]. split; [exact Hnot|].
  split; [reflexivity|]. split; [reflexivity|]. split; [reflexivity|].
  intros [|q ds] Hu; [vm_compute; reflexivity|].
  simpl in Hu. apply andb_true_iff in Hu. destruct Hu as [Hq Hu].
  destruct (wordAt_unit q Hq) as [w Hw].
  pose proof (Reachable_Board nearlyFull (ReachableFair_Reachable _ nearlyFull_fair)) as Hb.
  assert (Hsnake : snake nearlyFull = {| x := 9; y := 9 |} :: tl (snake nearlyFull))
    by reflexivity.
  apply (step_completing nearlyFull {| x := 9; y := 9 |} (tl (snake nearlyFull))
           {| id := foodId 2 9 10; fx := 9; fy := 10; letter := "B" |} q ds w);
    try reflexivity; try assumption.
  apply generateFoodsForWord_starved.
  change (advance {| x := 9; y := 9 |} (nextDirection nearlyFull))
    with {| x := 9; y := 10 |}.
  pose proof (freshCandidates_room ({| x := 9; y := 10 |} :: snake nearlyFull) ds Hu)
    as Hroom.
  assert (Hlen : List.length ({| x := 9; y := 10 |} :: snake nearlyFull) = 398%nat)
    by reflexivity.
  rewrite Hlen in Hroom.
  pose proof (WORDS_three_letters w (wordAt_In _ _ Hw)) as Hw3.
  assert (Hfree : (List.length
                     (freshCandidates ({| x := 9; y := 10 |} :: snake nearlyFull) ds)
                   + 398 <= 400)%nat).
  { apply Hroom.
    - constructor; [exact Hnot | apply Hb].
    - constructor; [exact Hgrid | apply Hb]. }
  lia.
Qed.

(** * Pause, resume and the queue *)

(** A tick that does not complete the word returns whatever the supply,
    without drawing from it. *)
Lemma step_returns_unless_completing (st : GameState) (ds : list Q) :
  snake st <> [] ->
  completesWord st = false ->
  exists st', step st ds = Returned st' ds.
Proof.
  intros Hsn. unfold step, completesWord.
  destruct (negb (hasStarted st) || gameOver st || isPaused st); [now exists st|].
  destruct (takeDirection st) as [d st1].
  destruct (snake st) as [|head body]; [congruence|].
  destruct (hitsWall (advance head d)); [eexists; reflexivity|].
  destruct (hitsSelf (head :: body) (advance head d)); [eexists; reflexivity|].
  destruct (findIndex (onFood (advance head d)) (foods st)) as [i|] eqn:Hfi;
    [|eexists; reflexivity].
  destruct (findIndex_in_range _ _ _ Hfi) as [f Hnth]. rewrite Hnth.
  destruct (letterMatches f (word st) (wordIndex st)); [|eexists; reflexivity].
  destruct (String.length (word st) <=? S (wordIndex st))%nat;
    [discriminate | eexists; reflexivity].
Qed.

Lemma step_returns_with_room (st : GameState) (q : Q) (ds : list Q) :
  snake st <> [] ->
  unitDraw q = true ->
  (forall head body,
     snake st = head :: body ->
     (11 <= List.length
              (freshCandidates (advance head (nextDirection st) :: snake st) ds))%nat) ->
  exists st' rest, step st (q :: ds) = Returned st' rest.
Proof.
  intros Hsn Hq Hroom. unfold step.
  destruct (negb (hasStarted st) || gameOver st || isPaused st);
    [eexists; eexists; reflexivity|].
  destruct (takeDirection st) as [d st1] eqn:Ht.
  assert (Hd : d = nextDirection st) by (rewrite <- takeDirection_fst, Ht; reflexivity).
  subst d.
  destruct (snake st) as [|head body] eqn:Hs; [congruence|].
  specialize (Hroom head body eq_refl).
  destruct (hitsWall (advance head (nextDirection st)));
    [eexists; eexists; reflexivity|].
  destruct (hitsSelf (head :: body) (advance head (nextDirection st)));
    [eexists; eexists; reflexivity|].
  destruct (findIndex (onFood (advance head (nextDirection st))) (foods st))
    as [i|] eqn:Hfi; [|eexists; eexists; reflexivity].
  destruct (findIndex_in_range _ _ _ Hfi) as [f Hnth]. rewrite Hnth.
  destruct (letterMatches f (word st) (wordIndex st));
    [|eexists; eexists; reflexivity].
  destruct (String.length (word st) <=? S (wordIndex st))%nat;
    [|eexists; eexists; reflexivity].
  unfold bind, randomWord, bind, random, ret.
  destruct (wordAt_unit q Hq) as [w Hw]. rewrite Hw.
  assert (Hlen : (String.length w
                  <= List.length
                       (freshCandidates
                          (advance head (nextDirection st) :: head :: body) ds))%nat).
  { pose proof (WORDS_short w (wordAt_In _ _ Hw)). lia. }
  destruct (placeLetters_returns w 0 [] _ ds Hlen) as [fs [rest Hgen]].
  fold (generateFoodsForWord w (advance head (nextDirection st) :: head :: body) ds)
    in Hgen.
  rewrite Hgen. eexists; eexists; reflexivity.
Qed.

(** C10.  While the game is Paused: a key that stands for a direction is
    checked as ever and, if its direction differs from the reference and is
    not its reversal, appended to the queue (otherwise nothing changes); a
    click on an on-screen direction button changes nothing; a tick changes
    nothing, so the queue is kept; resuming (space, Escape, the pause button
    or the resume button) clears the pause flag and nothing else, so queue
    and direction are kept and the game is Running.  The tick after the
    resume returns, commits the oldest queued direction and removes just
    that one from the queue: for any draws when it does not eat the last
    letter of the word, and when it does, for draws that leave room for a
    new word.  Every later tick of the Running game that returns does the
    same. *)
Theorem paused_keys_queue_buttons_ignored (st : GameState) :
  Reachable st ->
  paused st = true ->
  (forall key d,
     keyDirection key = Some d ->
     (d <> lastDir st -> d <> opposite (lastDir st) ->
      handleKeyDown key st = setDirectionQueue (directionQueue st ++ [d]) st) /\
     (d = lastDir st \/ d = opposite (lastDir st) ->
      handleKeyDown key st = st)) /\
  (forall b, handleDirectionClick (buttonDir b) st = st) /\
  (forall ds, step st ds = Returned st ds) /\
  (forall ev,
     ev = KeyDown " " \/ ev = KeyDown "Escape" \/ ev = PauseClick \/ ev = ResumeClick ->
     forall ds, exists st1,
       dispatch ev st ds = Returned st1 ds /\
       st1 = setIsPaused (fun _ => false) st /\
       running st1 = true /\
       directionQueue st1 = directionQueue st /\
       direction st1 = direction st) /\
  (forall st1 ds st2 rest,
     running st1 = true ->
     step st1 ds = Returned st2 rest ->
     direction st2 = nextDirection st1 /\
     directionQueue st2 = tl (directionQueue st1)) /\
  (forall ds,
     completesWord (setIsPaused (fun _ => false) st) = false ->
     exists st2,
       step (setIsPaused (fun _ => false) st) ds = Returned st2 ds /\
       direction st2 = nextDirection st /\
       directionQueue st2 = tl (directionQueue st)) /\
  (forall q ds,
     unitDraw q = true ->
     (forall head body,
        snake st = head :: body ->
        (11 <= List.length
                 (freshCandidates (advance head (nextDirection st) :: snake st) ds))%nat) ->
     exists st2 rest,
       step (setIsPaused (fun _ => false) st) (q :: ds) = Returned st2 rest /\
       direction st2 = nextDirection st /\
       directionQueue st2 = tl (directionQueue st)).
Proof.
  intros Hreach Hp. apply Reachable_Invariant in Hreach.
  destruct (paused_flags st Hp) as [Hhs [Hgo Hip]].
  pose proof (lastDir_unit st Hreach) as Hu.
  assert (Hcommit : forall st1 ds st2 rest,
             running st1 = true ->
             step st1 ds = Returned st2 rest ->
             direction st2 = nextDirection st1 /\
             directionQueue st2 = tl (directionQueue st1)).
  { intros st1 ds st2 rest Hr Hstep. apply step_Ticks, Ticks_frame in Hstep.
    destruct (tf_direction _ _ Hstep) as [[Hr' _] | [_ H]]; [congruence | exact H]. }
  assert (Hresumed : running (setIsPaused (fun _ => false) st) = true)
    by (unfold running; cbn [hasStarted gameOver isPaused setIsPaused];
        now rewrite Hhs, Hgo).
  split; [|split; [|split; [|split; [|split; [|split]]]]].
  - intros key d Hk. unfold handleKeyDown. rewrite Hhs, Hgo. simpl.
    rewrite (keySwitch_unit key (lastDir st) d Hu Hk).
    assert (Hd : unitDir d = true).
    { pose proof (keySwitch_unit key (lastDir st) d Hu Hk) as Hsw.
      destruct (sameCell d (opposite (lastDir st))) eqn:Hs.
      - apply sameCell_true in Hs. subst d.
        destruct (unitDir_cases _ Hu) as [-> | [-> | [-> | ->]]]; reflexivity.
      - now apply keySwitch_turn in Hsw. }
    split.
    + intros Hne Hop. apply sameCell_false in Hop. rewrite Hop.
      destruct (pushIfNew_queue d st) as [[E _] | [_ E]]; [contradiction | exact E].
    + intros [E | E].
      * subst d. destruct (sameCell (lastDir st) (opposite (lastDir st))); [reflexivity|].
        destruct (pushIfNew_queue (lastDir st) st) as [[_ E] | [E _]];
          [exact E | congruence].
      * apply sameCell_true in E. now rewrite E.
  - intros b. unfold handleDirectionClick. rewrite Hhs, Hgo, Hip. reflexivity.
  - intros ds. unfold step. rewrite Hhs, Hgo, Hip. reflexivity.
  - intros ev Hev ds.
    exists (setIsPaused (fun _ => false) st).
    assert (Hrender : forall f, afterRender st (setIsPaused f st) = setIsPaused f st).
    { intros f. unfold afterRender. simpl. now rewrite !Z.eqb_refl. }
    assert (Hflip : setIsPaused negb st = setIsPaused (fun _ => false) st)
      by (unfold setIsPaused; rewrite Hip; reflexivity).
    split; [|split; [reflexivity | split; [exact Hresumed | split; reflexivity]]].
    destruct Hev as [-> | [-> | [-> | ->]]]; unfold dispatch, bind, handle, ret.
    + unfold handleKeyDown. rewrite Hhs, Hgo. simpl. now rewrite Hrender, Hflip.
    + unfold handleKeyDown. rewrite Hhs, Hgo. simpl. now rewrite Hrender, Hflip.
    + rewrite Hhs, Hgo, Hip. simpl. now rewrite Hrender.
    + rewrite Hhs, Hgo, Hip. simpl. now rewrite Hrender.
  - exact Hcommit.
  - intros ds Hmid.
    destruct (step_returns_unless_completing (setIsPaused (fun _ => false) st) ds)
      as [st2 Hstep]; [apply Hreach | exact Hmid |].
    exists st2. split; [exact Hstep|]. exact (Hcommit _ _ _ _ Hresumed Hstep).
  - intros q ds Hq Hroom.
    destruct (step_returns_with_room (setIsPaused (fun _ => false) st) q ds)
      as [st2 [rest Hstep]]; [apply Hreach | exact Hq | exact Hroom |].
    exists st2, rest. split; [exact Hstep|]. exact (Hcommit _ _ _ _ Hresumed Hstep).
Qed.

Lemma pausedLeft_reachable : Reachable (handleKeyDown "ArrowLeft" pausedGame).
Proof.
  apply (reach_dispatch pausedGame _ (KeyDown "ArrowLeft") [] []);
    [apply pausedGame_reachable | reflexivity].
Qed.

Lemma paused_keys_queue_buttons_ignored_witness :
  handleKeyDown "ArrowLeft" pausedGame
    = setDirectionQueue [ {| x := -1; y := 0 |} ] pausedGame /\
  handleKeyDown "ArrowDown" pausedGame = pausedGame /\
  handleDirectionClick (buttonDir ChevronLeft) pausedGame = pausedGame /\
  step pausedGame [] = Returned pausedGame [] /\
  (exists st2,
     step (setIsPaused (fun _ => false) (handleKeyDown "ArrowLeft" pausedGame)) []
       = Returned st2 [] /\
     direction st2 = {| x := -1; y := 0 |} /\
     directionQueue st2 = []) /\
  (exists st2 rest,
     step (setIsPaused (fun _ => false) (handleKeyDown "ArrowLeft" pausedGame))
          ((3#5)%Q :: drawsRow)
       = Returned st2 rest /\
     direction st2 = {| x := -1; y := 0 |} /\
     directionQueue st2 = []).
Proof.
  destruct (paused_keys_queue_buttons_ignored pausedGame pausedGame_reachable eq_refl)
    as [Hkey [Hclick [Htick _]]].
  destruct (paused_keys_queue_buttons_ignored (handleKeyDown "ArrowLeft" pausedGame)
              pausedLeft_reachable eq_refl)
    as [_ [_ [_ [_ [_ [Hmid Hroom]]]]]].
  split; [|split; [|split; [|split; [|split]]]].
  - apply (Hkey "ArrowLeft"%string {| x := -1; y := 0 |} eq_refl); discriminate.
  - apply (Hkey "ArrowDown"%string {| x := 0; y := 1 |} eq_refl). right. reflexivity.
  - apply Hclick.
  - apply Htick.
  - apply (Hmid []). reflexivity.
  - apply (Hroom (3#5)%Q drawsRow eq_refl).
    intros head body E. injection E as <- <-. vm_compute. lia.
Defined.

(** * Score, length and delay *)

Lemma completesWord_spec (st : GameState) :
  completesWord st = true <->
  running st = true /\
  exists head body i f,
    snake st = head :: body /\
    hitsWall (advance head (nextDirection st))
      || hitsSelf (snake st) (advance head (nextDirection st)) = false /\
    findIndex (onFood (advance head (nextDirection st))) (foods st) = Some i /\
    nth_error (foods st) i = Some f /\
    letterMatches f (word st) (wordIndex st) = true /\
    (String.length (word st) <= S (wordIndex st))%nat.
Proof.
  unfold completesWord. rewrite guard_running.
  destruct (takeDirection st) as [d st1] eqn:Ht.
  assert (Hd : d = nextDirection st) by (rewrite <- takeDirection_fst, Ht; reflexivity).
  subst d. clear Ht.
  split.
  - destruct (running st); cbn [negb]; [|discriminate].
    destruct (snake st) as [|head body] eqn:Hs; [discriminate|].
    destruct (hitsWall _) eqn:Hw; [discriminate|].
    destruct (hitsSelf _ _) eqn:Hself; [discriminate|].
    destruct (findIndex _ _) as [i|] eqn:Hfi; [|discriminate].
    destruct (nth_error _ _) as [f|] eqn:Hnth; [|discriminate].
    destruct (letterMatches _ _ _) eqn:Hlm; [|discriminate].
    intros Hlen. apply Nat.leb_le in Hlen.
    split; [reflexivity|]. exists head, body, i, f.
    rewrite Hw, Hself. cbn [orb]. repeat split; assumption.
  - intros [Hr [head [body [i [f [Hs [Hc [Hfi [Hnth [Hlm Hlen]]]]]]]]]].
    rewrite Hr, Hs. cbn [negb]. rewrite Hs in Hc.
    apply orb_false_iff in Hc. destruct Hc as [Hw Hself].
    rewrite Hw, Hself, Hfi, Hnth, Hlm. now apply Nat.leb_le.
Qed.

Lemma Ticks_accounts (st st' : GameState) (ds rest : list Q) (k : Z) :
  accounts st k -> Ticks st ds st' rest ->
  accounts st' (tally Tick st k).
Proof.
  intros [Hk [Hsc Hsp]] HT. unfold accounts, BASE_SPEED, tally in *.
  pose proof (takeDirection_only_direction st) as Hd.
  destruct Hd as [_ [_ [_ [Hsn [_ [_ [_ [Hscore [_ [_ [Hspeed _]]]]]]]]]]].
  pose proof (completesWord_spec st) as Hcw.
  destruct HT as
    [ ds Hr
    | ds head body Hr Hs Hc
    | ds head body Hr Hs Hc Hfi
    | ds head body i f Hr Hs Hc Hfi Hnth Hlm
    | ds head body i f Hr Hs Hc Hfi Hnth Hlm Hlen
    | q ds rest head body i f nextWord newFoods Hr Hs Hc Hfi Hnth Hlm Hlen Hw0 Hgen ].
  1-5: assert (Hno : completesWord st = false)
    by (destruct (completesWord st); [exfalso|reflexivity];
        destruct Hcw as [Hcw _];
        destruct (Hcw eq_refl)
          as [Hr' [head' [body' [i' [f' [Hs' [Hc' [Hfi' [Hnth' [Hlm' Hlen']]]]]]]]]];
        first [congruence | lia]).
  1-5: rewrite Hno; fields; rewrite ?Hsn, ?Hscore, ?Hspeed.
  - auto.
  - auto.
  - rewrite length_removelast_cons. auto.
  - auto.
  - cbn [List.length]. repeat split; lia.
  - assert (Hyes : completesWord st = true).
    { apply Hcw. split; [exact Hr|]. exists head, body, i, f.
      repeat split; assumption. }
    rewrite Hyes. fields. rewrite ?Hsn, ?Hscore, ?Hspeed.
    cbn [List.length]. repeat split; lia.
Qed.

Lemma Completed_Reachable (st : GameState) (k : Z) :
  Completed st k -> Reachable st.
Proof.
  induction 1 as [saved ds rest st Hm | st st' ev ds rest k Hc IH Hd].
  - eapply reach_mount; eauto.
  - eapply reach_dispatch; eauto.
Qed.

Lemma Reachable_Completed (st : GameState) :
  Reachable st -> exists k, Completed st k.
Proof.
  induction 1 as [saved ds rest st Hm | st st' ev ds rest Hr [k IH] Hd].
  - exists 0. eapply completed_mount; eauto.
  - exists (tally ev st k). eapply completed_dispatch; eauto.
Qed.

Lemma Completed_accounts (st : GameState) (k : Z) :
  Completed st k -> accounts st k.
Proof.
  induction 1 as [saved ds rest st Hm | st st' ev ds rest k Hc IH Hd].
  - apply mount_fields in Hm.
    destruct Hm as [_ [Hs [Hsc Hsp]]].
    unfold accounts. rewrite Hs, Hsc, Hsp. simpl. repeat split; lia.
  - pose proof (Reachable_Invariant st (Completed_Reachable st k Hc)) as Hinv.
    apply dispatch_handle in Hd. destruct Hd as [st1 [Hh ->]].
    destruct (afterRender_frame st st1)
      as [_ [Es [_ [_ [_ [_ [_ [Esc [_ [_ Esp]]]]]]]]]].
    unfold accounts. rewrite Es, Esc, Esp. fold (accounts st1 (tally ev st k)).
    assert (Hquiet : ev <> Tick -> ev <> ResetClick -> accounts st1 k).
    { intros Hnt Hnr. pose proof (handle_facts ev st st1 ds rest Hinv Hh) as F.
      pose proof (hf_score _ _ _ F) as Hscore.
      apply handle_quiet_frame in Hh; try congruence.
      destruct Hh as [[E1 _ _ _ E2 _ _ _] _].
      unfold accounts in *. rewrite E1, E2.
      destruct ev; try congruence; rewrite Hscore; exact IH. }
    destruct ev; try (apply Hquiet; discriminate).
    + apply step_Ticks in Hh. exact (Ticks_accounts _ _ _ _ _ IH Hh).
    + simpl in Hh. unfold tally. destruct (gameOver st) eqn:Hgo.
      * unfold resetGame, bind, randomWord, bind, random, ret in Hh.
        destruct ds as [|q ds]; [discriminate|].
        destruct (wordAt _); [|discriminate].
        destruct (generateFoodsForWord _ _ _); try discriminate.
        injection Hh as <- _. unfold accounts. fields. simpl.
        repeat split; lia.
      * unfold ret in Hh. injection Hh as <- _. exact IH.
Qed.

Lemma play_completed (script : list (Event * list Q)) :
  forall st st' k,
  Completed st k ->
  play script st = Some st' -> Completed st' (tallyPlay script st k).
Proof.
  induction script as [|[ev ds] script IH]; intros st st' k Hst; simpl.
  - intros E. now injection E as <-.
  - destruct (dispatch ev st ds) as [st1 rest| |] eqn:Hd; try discriminate.
    apply IH. eapply completed_dispatch; eauto.
Qed.

Lemma nearlyFull_completed : Completed nearlyFull 129.
Proof.
  assert (H : exists st0,
             mount None drawsAhead = Returned st0 [] /\
             play fillScript st0 = Some nearlyFull /\
             tallyPlay fillScript st0 0 = 129).
  { eexists. split; [reflexivity | split; vm_compute; reflexivity]. }
  destruct H as [st0 [Hm [Hp Hk]]].
  rewrite <- Hk. apply (play_completed fillScript st0 nearlyFull 0); [|exact Hp].
  exact (completed_mount None drawsAhead [] st0 Hm).
Qed.

(** X22.  Along every run, count the words completed since the last reset:
    0 at the mount, one more at each tick that eats the last letter of the
    word, 0 again at each reset that is carried out.  Every reachable state
    has such a count, and whenever the count is [k] the score is 10 for
    every cell the snake has grown beyond its three initial cells plus 50
    times [k], and the delay is 150 less 5 times [k], but not below 60. *)
Theorem score_counts_letters_and_words (st : GameState) :
  Reachable st ->
  (exists k, Completed st k) /\
  (forall k,
     Completed st k ->
     0 <= k /\
     score st = 10 * (Z.of_nat (List.length (snake st)) - 3) + 50 * k /\
     speed st = Z.max 60 (BASE_SPEED - 5 * k) /\
     accounts st k).
Proof.
  intros Hr. split; [now apply Reachable_Completed|].
  intros k Hk. pose proof (Completed_accounts st k Hk) as Ha.
  destruct Ha as [H0 [Hsc Hsp]]. repeat split; assumption.
Qed.

Lemma score_counts_letters_and_words_witness :
  Completed nearlyFull 129 /\
  List.length (snake nearlyFull) = 397%nat /\
  score nearlyFull = 10 * (397 - 3) + 50 * 129 /\
  speed nearlyFull = 60.
Proof.
  pose proof nearlyFull_completed as Hk.
  destruct (score_counts_letters_and_words nearlyFull
              (ReachableFair_Reachable _ nearlyFull_fair)) as [_ H].
  destruct (H 129 Hk) as [_ [Hsc [Hsp _]]].
  split; [exact Hk|]. split; [reflexivity|]. split.
  - rewrite Hsc. reflexivity.
  - rewrite Hsp. reflexivity.
Defined.
